(** * NetTool: the interactive network plot of [src/app.py]

    A shallow embedding of the Dash application: the graph generator
    [create_graph], the figure builders [create_empty_figure] and
    [create_network_figure], and the two callbacks
    [update_original_network_plot] and [update_subgraph_plot].

    The application is glue code around three libraries.  Their objects are
    modelled as follows.
    - igraph ([Module ig]): a graph is a vertex count, an edge list over
      vertex ids and an optional ["name"] vertex attribute.  The
      deterministic queries the application uses ([neighborhood],
      [subgraph], [degree], [get_edgelist], iteration over a clustering)
      are executable functions.  The randomised algorithms ([Erdos_Renyi],
      [layout("fr")], [community_multilevel]) are operations on an abstract
      world state, constrained only by the shape of what they return.
    - Python's [random] module: [randint] is an operation on the same
      world state, constrained to return a value of the requested range.
    - plotly ([Module go]): [Scatter], [Layout] and [Figure] are records of
      the properties the application sets.

    A Python exception is a value [Err e]; a function that can raise
    returns a [Result].

    The callbacks are given twice.  In [Section App] they compute on
    values: the graph and the layout the module-level variables hold.
    In [Module Mem] they run on the objects themselves, held by
    reference in a store, and a library method returns the state it
    leaves its receiver in; this is the reading in which a callback
    could change the session graph, and the one the frame property of
    the callbacks is proved in.  The two readings are shown to return
    the same figures. *)

From Stdlib Require Import ZArith QArith Ascii.
From stdpp Require Import base numbers list strings gmap pretty.

Local Open Scope Z_scope.
Local Open Scope nat_scope.

(** ** Exceptions *)

(** The exceptions that can leave the application's functions.
    [InternalError] is igraph's own exception, raised for a vertex id that
    is not below the vertex count; a vertex id that is negative or does
    not fit a 64-bit signed integer is refused before that, with the
    builtin [TypeError].  [AttributeError] is what a method call on an
    object of the wrong kind raises. *)
Inductive PyError : Set :=
| InternalError
| TypeError
| AttributeError
| IndexError
| KeyError
| ValueError.

Inductive Result (A : Type) : Type :=
| Ok (a : A)
| Err (e : PyError).
Arguments Ok {A} a.
Arguments Err {A} e.

Definition of_option {A} (e : PyError) (o : option A) : Result A :=
  match o with Some a => Ok a | None => Err e end.

(** ** igraph *)

Module ig.

(** [vs_name] is the ["name"] vertex attribute: [None] until it is
    assigned, then one string per vertex. *)
Record Graph : Type := mkGraph {
  vcount : nat;
  get_edgelist : list (nat * nat);
  vs_name : option (list string)
}.

(** [Layout] objects are lists of 2D coordinates, one per vertex; the
    coordinate type is left open (Python floats, never computed on). *)
Abbreviation Layout float := (list (float * float)) (only parsing).

(** The invariant igraph maintains on every graph object. *)
Definition wf (g : Graph) : Prop :=
  Forall (λ e, e.1 < vcount g ∧ e.2 < vcount g) (get_edgelist g)
  ∧ match vs_name g with
    | Some ns => length ns = vcount g
    | None => True
    end.

#[global] Instance wf_dec g : Decision (wf g).
Proof. unfold wf. destruct (vs_name g); apply _. Defined.

(** [u] and [v] are joined by an (undirected) edge. *)
Definition adjacent (g : Graph) (u v : nat) : Prop :=
  (u, v) ∈ get_edgelist g ∨ (v, u) ∈ get_edgelist g.

#[global] Instance adjacent_dec g u v : Decision (adjacent g u v).
Proof. unfold adjacent. apply _. Defined.

(** [g.neighborhood(k)] with the defaults [order=1], [mode="all"],
    [mindist=0]: the vertex itself first, then its neighbours, each once,
    by increasing id.  A vertex id outside the graph is an error:
    [TypeError] when it is negative or at least [2^63], [InternalError]
    when it is from the vertex count up to below [2^63].  (A graph of
    igraph has fewer than [2^63] vertices, so that the order of the two
    tests makes no difference.) *)
Definition neighborhood (g : Graph) (k : Z) : Result (list nat) :=
  if decide (0 ≤ k < Z.of_nat (vcount g))%Z then
    let v := Z.to_nat k in
    Ok (v :: filter (λ u, u ≠ v ∧ adjacent g v u) (seq 0 (vcount g)))
  else if decide (k < 0 ∨ 2 ^ 63 ≤ k)%Z then Err TypeError
  else Err InternalError.

(** The vertices an induced subgraph keeps, in the order of their new
    ids: igraph preserves the relative order of the original ids. *)
Definition induced_vids (g : Graph) (vids : list nat) : list nat :=
  filter (λ v, v ∈ vids) (seq 0 (vcount g)).

(** The new id of original vertex [v]: its position among the kept ones. *)
Definition new_id (sel : list nat) (v : nat) : option nat :=
  fst <$> list_find (λ u, u = v) sel.

Definition remap_edge (sel : list nat) (e : nat * nat) : option (nat * nat) :=
  i ← new_id sel e.1; j ← new_id sel e.2; Some (i, j).

(** [g.subgraph(vids)], that is [induced_subgraph]: the kept vertices are
    renumbered from 0, every edge with both endpoints kept is kept, and
    vertex attributes are carried over.  (igraph does not promise the
    order of the edges of the result; the properties proved below are
    about the edges as a multiset.) *)
Definition subgraph (g : Graph) (vids : list nat) : Result Graph :=
  if decide (Forall (λ v, v < vcount g) vids) then
    let sel := induced_vids g vids in
    Ok {| vcount := length sel;
          get_edgelist := omap (remap_edge sel) (get_edgelist g);
          vs_name := (λ ns, omap (λ v, ns !! v) sel) <$> vs_name g |}
  else Err InternalError.

(** [g.degree()] for all vertices, loops counted twice: igraph counts,
    for every vertex, the edge ends that sit on it. *)
Definition bump (v : nat) (d : list nat) : list nat := alter S v d.

Definition degree (g : Graph) : list nat :=
  foldl (λ d e, bump e.2 (bump e.1 d)) (replicate (vcount g) 0) (get_edgelist g).

(** [g.vs["name"] = names]: the list must give one value per vertex. *)
Definition set_vs_name (g : Graph) (names : list string) : Result Graph :=
  if decide (length names = vcount g) then
    Ok {| vcount := vcount g; get_edgelist := get_edgelist g; vs_name := Some names |}
  else Err ValueError.

(** [[v["name"] for v in g.vs]]. *)
Definition names (g : Graph) : Result (list string) :=
  match vs_name g with
  | Some ns => Ok ns
  | None => if decide (vcount g = 0) then Ok [] else Err KeyError
  end.

(** Iterating over a [VertexClustering] with membership vector [memb]:
    one list of vertex ids per cluster id [0 .. max memb], each in
    increasing order. *)
Definition clusters (memb : list nat) : list (list nat) :=
  match memb with
  | [] => []
  | _ => (λ c, (filter (λ i, memb !! i = Some c) (seq 0 (length memb))))
           <$> seq 0 (S (max_list memb))
  end.

End ig.

(** ** plotly *)

Module go.

Record Axis : Type := mkAxis {
  showgrid : bool;
  zeroline : bool;
  showticklabels : bool
}.

Record Margin : Type := mkMargin { b : Z; l : Z; r : Z; t : Z }.

Record Layout : Type := mkLayout {
  showlegend : bool;
  hovermode : string;
  margin : Margin;
  xaxis : Axis;
  yaxis : Axis
}.

Record Marker : Type := mkMarker {
  size : Z;
  color : list string;
  line_width : Z
}.

Record Line : Type := mkLine { width : Q; line_color : string }.

(** A [Scatter] trace.  A coordinate list may hold [None] entries, which
    the renderer treats as gaps; properties the application does not set
    are [None] (or the empty list). *)
Record Scatter (float : Type) : Type := mkScatter {
  x : list (option float);
  y : list (option float);
  mode : string;
  text : list string;
  marker : option Marker;
  hovertemplate : option string;
  customdata : list nat;
  textposition : option string;
  name : option string;
  line : option Line;
  hoverinfo : option string
}.
Arguments mkScatter {float}.
Arguments x {float}.
Arguments y {float}.
Arguments mode {float}.
Arguments text {float}.
Arguments marker {float}.
Arguments hovertemplate {float}.
Arguments customdata {float}.
Arguments textposition {float}.
Arguments name {float}.
Arguments line {float}.
Arguments hoverinfo {float}.

(** What the callbacks return: the dictionary of [create_empty_figure]
    and the [go.Figure] of [create_network_figure] have the same two
    entries. *)
Record Figure (float : Type) : Type := mkFigure {
  data : list (Scatter float);
  layout : Layout
}.
Arguments mkFigure {float}.
Arguments data {float}.
Arguments layout {float}.

End go.

(** ** String formatting *)

Definition hex_digit (d : N) : Ascii.ascii :=
  match d with
  | 0 => "0" | 1 => "1" | 2 => "2" | 3 => "3" | 4 => "4" | 5 => "5"
  | 6 => "6" | 7 => "7" | 8 => "8" | 9 => "9" | 10 => "a" | 11 => "b"
  | 12 => "c" | 13 => "d" | 14 => "e" | _ => "f"
  end%N%char.

Fixpoint hex_go (fuel : nat) (n : N) (acc : string) : string :=
  match fuel with
  | O => acc
  | S fuel' =>
      let acc' := String (hex_digit (n mod 16)) acc in
      if (n <? 16)%N then acc' else hex_go fuel' (n / 16) acc'
  end.

(** Lower-case hexadecimal digits of [n], without prefix. *)
Definition hex (n : N) : string := hex_go (S (N.to_nat (N.log2 n))) n EmptyString.

Fixpoint zeros (k : nat) : string :=
  match k with O => EmptyString | S k' => String "0" (zeros k') end.

Definition zfill (w : nat) (s : string) : string :=
  zeros (w - String.length s) +:+ s.

(** [format(v, "02x")]: hexadecimal, zero-padded to width 2, the sign
    counting for the width. *)
Definition format_02x (v : Z) : string :=
  if (v <? 0)%Z then "-" +:+ zfill 1 (hex (Z.to_N (- v)))
  else zfill 2 (hex (Z.to_N v)).

(** ["#{:02x}{:02x}{:02x}".format(r, g, b)]. *)
Definition format_color (r g b : Z) : string :=
  "#" +:+ format_02x r +:+ format_02x g +:+ format_02x b.

Definition is_hex_digit (c : Ascii.ascii) : bool :=
  bool_decide (c ∈ String.list_ascii_of_string "0123456789abcdef").

(** Exactly two hexadecimal digits. *)
Definition is_hex2 (s : string) : bool :=
  match s with
  | String a (String b EmptyString) => is_hex_digit a && is_hex_digit b
  | _ => false
  end.

(** A colour string of the form [#rrggbb]. *)
Definition is_rgb_color (s : string) : bool :=
  match s with
  | String "#" d => (String.length d =? 6) && forallb is_hex_digit (String.list_ascii_of_string d)
  | _ => false
  end.

(** [f"Node-{i}"]. *)
Definition node_name (i : nat) : string := "Node-" +:+ pretty i.

(** ** Dash *)

(** What Dash hands to the click callback: [{"points": [{"pointIndex": k}]}],
    or [None]. *)
Record Point : Type := mkPoint { pointIndex : Z }.
Record ClickData : Type := mkClickData { points : list Point }.

Definition click (k : Z) : ClickData := {| points := [ {| pointIndex := k |} ] |}.

(** ** The application *)

Section App.

(** Python floats (coordinates), the payload of the relayout event, and
    the world: the state of the random source and of whatever else the
    randomised library calls depend on. *)
Context {float RelayoutData World : Type}.

(** [random.randint(a, b)]. *)
Variable randint : Z → Z → World → Z * World.
(** [ig.Graph.Erdos_Renyi(n=n, m=m, directed=False)]. *)
Variable Erdos_Renyi : nat → nat → World → ig.Graph * World.
(** [g.layout("fr")]. *)
Variable layout_fr : ig.Graph → World → ig.Layout float * World.
(** [g.community_multilevel()], as the membership vector of the
    clustering it returns. *)
Variable community_multilevel : ig.Graph → World → list nat * World.

(** Computations that read and advance the world and may raise. *)
Definition W (A : Type) : Type := World → Result A * World.

#[local] Instance W_ret : MRet W := λ A a w, (Ok a, w).
#[local] Instance W_bind : MBind W := λ A B f m w,
  match m w with
  | (Ok a, w') => f a w'
  | (Err e, w') => (Err e, w')
  end.

(** A pure step that may raise. *)
Definition lift {A} (r : Result A) : W A := λ w, (r, w).
(** A library call that cannot raise. *)
Definition call {A} (f : World → A * World) : W A :=
  λ w, let (a, w') := f w in (Ok a, w').

(** ** [create_graph] *)

Definition create_graph : W (ig.Graph * ig.Layout float) :=
  g ← call (Erdos_Renyi 50 100);
  let node_names := node_name <$> seq 0 50 in
  g ← lift (ig.set_vs_name g node_names);
  layout ← call (layout_fr g);
  mret (g, layout).

(** ** [create_empty_figure] *)

Definition hidden_axis : go.Axis :=
  {| go.showgrid := false; go.zeroline := false; go.showticklabels := false |}.

Definition figure_layout : go.Layout :=
  {| go.showlegend := false;
     go.hovermode := "closest";
     go.margin := {| go.b := 0; go.l := 0; go.r := 0; go.t := 0 |};
     go.xaxis := hidden_axis;
     go.yaxis := hidden_axis |}.

Definition create_empty_figure : go.Figure float :=
  {| go.data := []; go.layout := figure_layout |}.

(** ** [create_network_figure] *)

(** [Xn, Yn] from the transposed layout: the unpacking fails on a layout
    without points. *)
Definition unzip_layout (layout : ig.Layout float)
  : Result (list float * list float) :=
  match layout with
  | [] => Err ValueError
  | _ => Ok (layout.*1, layout.*2)
  end.

(** The inner loop [for node in nodes: community_colors[node] = color]. *)
Definition assign_color (color : string) (nodes : list nat)
    (community_colors : gmap nat string) : gmap nat string :=
  foldl (λ cc node, <[node := color]> cc) community_colors nodes.

(** The loop over the communities: three draws for each, also for a
    community without nodes. *)
Fixpoint color_communities (communities : list (list nat))
    (community_colors : gmap nat string) : W (gmap nat string) :=
  match communities with
  | [] => mret community_colors
  | nodes :: rest =>
      r ← call (randint 0 255);
      g ← call (randint 0 255);
      b ← call (randint 0 255);
      let color := format_color r g b in
      color_communities rest (assign_color color nodes community_colors)
  end.

(** [[community_colors[i] for i in range(len(g.vs))]]. *)
Fixpoint lookup_colors (community_colors : gmap nat string) (ids : list nat)
  : Result (list string) :=
  match ids with
  | [] => Ok []
  | i :: rest =>
      match community_colors !! i with
      | None => Err KeyError
      | Some c =>
          match lookup_colors community_colors rest with
          | Ok cs => Ok (c :: cs)
          | Err e => Err e
          end
      end
  end.

(** The loop over the edges, extending [edge_x] and [edge_y]. *)
Fixpoint edge_segments (layout : ig.Layout float) (edges : list (nat * nat))
    (edge_x edge_y : list (option float))
  : Result (list (option float) * list (option float)) :=
  match edges with
  | [] => Ok (edge_x, edge_y)
  | edge :: rest =>
      match layout !! edge.1, layout !! edge.2 with
      | Some (x0, y0), Some (x1, y1) =>
          edge_segments layout rest
            (edge_x ++ [Some x0; Some x1; None])
            (edge_y ++ [Some y0; Some y1; None])
      | _, _ => Err IndexError
      end
  end.

Definition node_trace (Xn Yn : list float) (names colors : list string)
    (node_degrees : list nat) : go.Scatter float :=
  {| go.x := Some <$> Xn;
     go.y := Some <$> Yn;
     go.mode := "markers+text";
     go.text := names;
     go.marker := Some {| go.size := 10; go.color := colors; go.line_width := 2 |};
     go.hovertemplate := Some "%{text}<br>Degree: %{customdata}";
     go.customdata := node_degrees;
     go.textposition := Some "top center";
     go.name := Some EmptyString;
     go.line := None;
     go.hoverinfo := None |}.

Definition edge_trace (edge_x edge_y : list (option float)) : go.Scatter float :=
  {| go.x := edge_x;
     go.y := edge_y;
     go.mode := "lines";
     go.text := [];
     go.marker := None;
     go.hovertemplate := None;
     go.customdata := [];
     go.textposition := None;
     go.name := None;
     go.line := Some {| go.width := (1 # 2)%Q; go.line_color := "#888" |};
     go.hoverinfo := Some "none" |}.

Definition create_network_figure (g : ig.Graph) (layout : ig.Layout float)
  : W (go.Figure float) :=
  '(Xn, Yn) ← lift (unzip_layout layout);
  communities ← call (community_multilevel g);
  community_colors ← color_communities (ig.clusters communities) ∅;
  let node_degrees := ig.degree g in
  names ← lift (ig.names g);
  colors ← lift (lookup_colors community_colors (seq 0 (ig.vcount g)));
  '(edge_x, edge_y) ← lift (edge_segments layout (ig.get_edgelist g) [] []);
  mret {| go.data := [edge_trace edge_x edge_y;
                      node_trace Xn Yn names colors node_degrees];
          go.layout := figure_layout |}.

(** *** The figure builder, effects apart

    The colours [k] communities get, in the order they are drawn; the
    colour table once they are all assigned; and the coordinate lists of
    the edge trace.  [create_network_figure] is shown below to compute
    exactly these. *)

Fixpoint draw_colors (k : nat) (w : World) : list string * World :=
  match k with
  | O => ([], w)
  | S k' =>
      let (r, w1) := randint 0 255 w in
      let (g, w2) := randint 0 255 w1 in
      let (b, w3) := randint 0 255 w2 in
      let (colors, w') := draw_colors k' w3 in
      (format_color r g b :: colors, w')
  end.

(** The world after [n] calls of [random.randint(0, 255)], and the value
    the call after these returns. *)
Fixpoint after_draws (n : nat) (w : World) : World :=
  match n with
  | O => w
  | S n' => after_draws n' (randint 0 255 w).2
  end.

Definition draw (n : nat) (w : World) : Z := (randint 0 255 (after_draws n w)).1.

Definition paint (communities : list (list nat)) (colors : list string)
    (community_colors : gmap nat string) : gmap nat string :=
  foldl (λ cc p, assign_color p.2 p.1 cc) community_colors
    (zip communities colors).

Definition segments {A} (proj : float * float → A) (layout : ig.Layout float)
    (edges : list (nat * nat)) : list (option A) :=
  edge ← edges; [proj <$> layout !! edge.1; proj <$> layout !! edge.2; None].

(** ** The callbacks *)

(** The module-level variables [original_graph] and [layout], next to the
    world. *)
Record State : Type := mkState {
  original_graph : ig.Graph;
  layout : ig.Layout float;
  world : World
}.

(** Running a computation inside a callback: it advances the world, and
    nothing in it assigns the module-level variables. *)
Definition run {A} (m : W A) (s : State) : Result A * State :=
  let (r, w') := m (world s) in
  (r, {| original_graph := original_graph s; layout := layout s; world := w' |}).

(** Module initialisation: [original_graph, layout = create_graph()]. *)
Definition startup (w : World) : Result State :=
  match create_graph w with
  | (Ok (g, lay), w') => Ok {| original_graph := g; layout := lay; world := w' |}
  | (Err e, _) => Err e
  end.

Definition update_original_network_plot (relayoutData : RelayoutData)
    (s : State) : Result (go.Figure float) * State :=
  run (create_network_figure (original_graph s) (layout s)) s.

Definition update_subgraph_plot (clickData : option ClickData)
    (s : State) : Result (go.Figure float) * State :=
  let subgraph_figure := create_empty_figure in
  match clickData with
  | None => (Ok subgraph_figure, s)
  | Some cd =>
      run (point ← lift (of_option IndexError (points cd !! 0));
           let clicked_node_index := pointIndex point in
           neighbors ← lift (ig.neighborhood (original_graph s) clicked_node_index);
           subgraph ← lift (ig.subgraph (original_graph s) neighbors);
           subgraph_layout ← call (layout_fr subgraph);
           create_network_figure subgraph subgraph_layout) s
  end.

(** Dash calls the callbacks one after the other, each on the state the
    previous one left: a relayout event of the subgraph plot triggers
    [update_original_network_plot], the click data of the original plot
    triggers [update_subgraph_plot]. *)
Inductive Event : Type :=
| Relayout (relayoutData : RelayoutData)
| Clicked (clickData : option ClickData).

Definition dispatch (s : State) (ev : Event) : State :=
  match ev with
  | Relayout relayoutData => (update_original_network_plot relayoutData s).2
  | Clicked clickData => (update_subgraph_plot clickData s).2
  end.

Definition serve (events : list Event) (s : State) : State :=
  foldl dispatch s events.

(** What [create_network_figure] needs from its arguments to return: a
    well-formed graph with at least one vertex and named vertices, and a
    layout with one point per vertex. *)
Definition renderable (g : ig.Graph) (layout : ig.Layout float) : Prop :=
  ig.wf g ∧ 0 < ig.vcount g ∧ is_Some (ig.vs_name g)
  ∧ length layout = ig.vcount g.

End App.

(** ** Reading a figure *)

(** The colour, label and degree of marker [i] of a built figure (its
    second trace). *)
Definition marker_colors {float} (fig : go.Figure float) : list string :=
  match go.data fig !! 1 with
  | Some tr => match go.marker tr with Some mk => go.color mk | None => [] end
  | None => []
  end.

Definition marker_labels {float} (fig : go.Figure float) : list string :=
  match go.data fig !! 1 with Some tr => go.text tr | None => [] end.

Definition marker_degrees {float} (fig : go.Figure float) : list nat :=
  match go.data fig !! 1 with Some tr => go.customdata tr | None => [] end.

(** The number of edge ends on [v]: an edge from [v] to [v] counts twice. *)
Definition incident_count (g : ig.Graph) (v : nat) : nat :=
  length (filter (λ e, e.1 = v) (ig.get_edgelist g))
  + length (filter (λ e, e.2 = v) (ig.get_edgelist g)).

(** An edge of a subgraph, in the vertex ids of the graph it was taken
    from: [nodes] lists the original id of each vertex of the subgraph. *)
Definition original_edge (nodes : list nat) (e : nat * nat) : nat * nat :=
  (nodes !!! e.1, nodes !!! e.2).

(** No vertex is listed by two communities. *)
Definition disjoint_communities (communities : list (list nat)) : Prop :=
  ∀ c1 c2 n1 n2 i,
    communities !! c1 = Some n1 → communities !! c2 = Some n2 →
    i ∈ n1 → i ∈ n2 → c1 = c2.

(** ** A deterministic world

    An instance of the world in which the random source is a given
    sequence of raw draws, used to run the application on concrete inputs
    and to exhibit two renders that differ. *)

Module Sim.

Record World : Type := mkWorld { draws : nat → Z; pos : nat }.

Definition randint (a b : Z) (w : World) : Z * World :=
  ((a + draws w (pos w) `mod` (b - a + 1))%Z,
   {| draws := draws w; pos := S (pos w) |}).

(** All pairs [(i, j)] with [i < j < n]. *)
Definition pairs (n : nat) : list (nat * nat) :=
  j ← seq 0 n; i ← seq 0 j; [(i, j)].

Definition Erdos_Renyi (n m : nat) (w : World) : ig.Graph * World :=
  ({| ig.vcount := n; ig.get_edgelist := take m (pairs n); ig.vs_name := None |}, w).

Definition layout_fr (g : ig.Graph) (w : World) : ig.Layout Z * World :=
  ((λ i, (Z.of_nat i, (Z.of_nat i * Z.of_nat i)%Z)) <$> seq 0 (ig.vcount g), w).

(** Community detection by an arbitrary function of the graph. *)
Definition community_multilevel (detect : ig.Graph → list nat)
    (g : ig.Graph) (w : World) : list nat * World := (detect g, w).

(** One community for all vertices. *)
Definition one_community (g : ig.Graph) : list nat := replicate (ig.vcount g) 0.

(** The graph of the example scenario: vertices 0..3, edges 0-1 and 1-2. *)
Definition path_graph : ig.Graph :=
  {| ig.vcount := 4;
     ig.get_edgelist := [(0, 1); (1, 2)];
     ig.vs_name := Some (node_name <$> seq 0 4) |}.

Definition path_state (w : World) : State (float := Z) (World := World) :=
  {| original_graph := path_graph;
     layout := (layout_fr path_graph w).1;
     world := w |}.

Definition counting : World := {| draws := Z.of_nat; pos := 0 |}.

(** A random source whose first [k] raw draws are 0 and whose later ones
    are 1. *)
Definition step_source (k : nat) : World :=
  {| draws := λ i, if decide (i < k) then 0%Z else 1%Z; pos := 0 |}.

End Sim.

(** ** The session as shared objects

    The callbacks once more, now on the objects themselves.  A machine
    state holds the objects by identity, the two module-level variables
    as references to objects, and the world.  A method of the graph
    library is taken with what it does to its receiver: it returns its
    result together with the state it leaves the receiver in, so that a
    call can change the object it is made on.  The figure builder and the
    callbacks receive references, and the graph the full plot is built
    from is the very object [original_graph] is bound to. *)

Module Mem.
Section Mem.
Context {float RelayoutData World : Type}.

Inductive Obj : Type :=
| GraphObj (g : ig.Graph)
| LayoutObj (positions : ig.Layout float).

Record Machine : Type := mkMachine {
  heap : gmap nat Obj;
  original_graph : nat;
  layout : nat;
  world : World
}.

(** A method of a graph object: from the state of the receiver and the
    world to the result, the state of the receiver after the call and
    the world after it. *)
Definition Method (A : Type) : Type :=
  ig.Graph → World → Result A * ig.Graph * World.

(** The graph library, method by method. *)
Record Library : Type := mkLibrary {
  Erdos_Renyi : nat → nat → World → ig.Graph * World;
  set_vs_name : list string → Method ();
  layout_fr : Method (ig.Layout float);
  community_multilevel : Method (list nat);
  degree : Method (list nat);
  vs_names : Method (list string);
  vs_len : Method nat;
  get_edgelist : Method (list (nat * nat));
  neighborhood : Z → Method (list nat);
  subgraph : list nat → Method ig.Graph
}.

Variable randint : Z → Z → World → Z * World.
Variable L : Library.

Definition M (A : Type) : Type := Machine → Result A * Machine.

#[local] Instance M_ret : MRet M := λ A a m, (Ok a, m).
#[local] Instance M_bind : MBind M := λ A B f c m,
  match c m with
  | (Ok a, m') => f a m'
  | (Err e, m') => (Err e, m')
  end.

Definition lift {A} (r : Result A) : M A := λ m, (r, m).

(** Reading a module-level variable. *)
Definition global (name : Machine → nat) : M nat := λ m, (Ok (name m), m).

(** Calling a method on the object behind a reference: the object is
    left in the state the method leaves it in. *)
Definition invoke {A} (r : nat) (f : Method A) : M A := λ m,
  match heap m !! r with
  | Some (GraphObj g) =>
      let '(res, g', w') := f g (world m) in
      (res, {| heap := <[r := GraphObj g']> (heap m);
               original_graph := original_graph m;
               layout := layout m;
               world := w' |})
  | _ => (Err AttributeError, m)
  end.

(** Reading the points of a layout object. *)
Definition points_of (r : nat) : M (ig.Layout float) := λ m,
  match heap m !! r with
  | Some (LayoutObj positions) => (Ok positions, m)
  | _ => (Err AttributeError, m)
  end.

(** A new object, at a reference no object has yet. *)
Definition new (o : Obj) : M nat := λ m,
  let r := fresh (dom (heap m)) in
  (Ok r, {| heap := <[r := o]> (heap m);
            original_graph := original_graph m;
            layout := layout m;
            world := world m |}).

(** A computation on the world alone. *)
Definition on_world {A} (c : World → Result A * World) : M A := λ m,
  let (res, w') := c (world m) in
  (res, {| heap := heap m;
           original_graph := original_graph m;
           layout := layout m;
           world := w' |}).

Definition create_graph : M (nat * nat) :=
  g0 ← on_world (λ w, let (g, w') := Erdos_Renyi L 50 100 w in (Ok g, w'));
  g ← new (GraphObj g0);
  let node_names := node_name <$> seq 0 50 in
  _ ← invoke g (set_vs_name L node_names);
  positions ← invoke g (layout_fr L);
  layout ← new (LayoutObj positions);
  mret (g, layout).

Definition create_network_figure (g layout : nat) : M (go.Figure float) :=
  positions ← points_of layout;
  '(Xn, Yn) ← lift (unzip_layout positions);
  communities ← invoke g (community_multilevel L);
  community_colors ←
    on_world (color_communities randint (ig.clusters communities) ∅);
  node_degrees ← invoke g (degree L);
  names ← invoke g (vs_names L);
  n ← invoke g (vs_len L);
  colors ← lift (lookup_colors community_colors (seq 0 n));
  edges ← invoke g (get_edgelist L);
  positions ← points_of layout;
  '(edge_x, edge_y) ← lift (edge_segments positions edges [] []);
  mret {| go.data := [edge_trace edge_x edge_y;
                      node_trace Xn Yn names colors node_degrees];
          go.layout := figure_layout |}.

(** Module initialisation: the two module-level variables are bound to
    the objects [create_graph] returns. *)
Definition startup (w : World) : Result Machine :=
  match create_graph {| heap := ∅; original_graph := 0; layout := 0; world := w |} with
  | (Ok (g, lay), m) =>
      Ok {| heap := heap m; original_graph := g; layout := lay; world := world m |}
  | (Err e, _) => Err e
  end.

Definition update_original_network_plot (relayoutData : RelayoutData)
  : M (go.Figure float) :=
  g ← global original_graph;
  positions ← global layout;
  create_network_figure g positions.

Definition update_subgraph_plot (clickData : option ClickData)
  : M (go.Figure float) :=
  let subgraph_figure := create_empty_figure in
  match clickData with
  | None => mret subgraph_figure
  | Some cd =>
      point ← lift (of_option IndexError (points cd !! 0));
      let clicked_node_index := pointIndex point in
      g ← global original_graph;
      neighbors ← invoke g (neighborhood L clicked_node_index);
      g ← global original_graph;
      sub ← invoke g (subgraph L neighbors);
      subgraph ← new (GraphObj sub);
      positions ← invoke subgraph (layout_fr L);
      subgraph_layout ← new (LayoutObj positions);
      create_network_figure subgraph subgraph_layout
  end.

Definition dispatch (m : Machine) (ev : Event (RelayoutData := RelayoutData))
  : Machine :=
  match ev with
  | Relayout relayoutData => (update_original_network_plot relayoutData m).2
  | Clicked clickData => (update_subgraph_plot clickData m).2
  end.

Definition serve (events : list (Event (RelayoutData := RelayoutData)))
    (m : Machine) : Machine :=
  foldl dispatch m events.

(** A method that leaves its receiver as it found it. *)
Definition read_only {A} (f : Method A) : Prop := ∀ g w, (f g w).1.2 = g.

(** What igraph promises of the methods that only query a graph: all but
    the assignment of the name attribute. *)
Definition queries_read_only : Prop :=
  read_only (layout_fr L) ∧ read_only (community_multilevel L)
  ∧ read_only (degree L) ∧ read_only (vs_names L) ∧ read_only (vs_len L)
  ∧ read_only (get_edgelist L)
  ∧ (∀ k, read_only (neighborhood L k))
  ∧ (∀ vids, read_only (subgraph L vids)).

(** From [m] to [m']: the module-level variables are bound to the same
    objects, and every object of [m] is there, unchanged. *)
Definition preserved (m m' : Machine) : Prop :=
  original_graph m' = original_graph m
  ∧ layout m' = layout m
  ∧ ∀ r o, heap m !! r = Some o → heap m' !! r = Some o.

(** A computation that preserves every machine state it is run in. *)
Definition preserving {A} (c : M A) : Prop := ∀ m, preserved m (c m).2.

End Mem.

(** The library whose methods compute what the functions of [ig] do and
    leave their receiver alone, but for the assignment of the names. *)
Definition query {World A} (f : ig.Graph → Result A) : Method (World := World) A :=
  λ g w, (f g, g, w).

Definition model_library {float World : Type}
    (Erdos_Renyi : nat → nat → World → ig.Graph * World)
    (layout_fr : ig.Graph → World → ig.Layout float * World)
    (community_multilevel : ig.Graph → World → list nat * World)
  : Library (float := float) (World := World) :=
  {| Mem.Erdos_Renyi := Erdos_Renyi;
     Mem.set_vs_name := λ names g w,
       match ig.set_vs_name g names with
       | Ok g' => (Ok (), g', w)
       | Err e => (Err e, g, w)
       end;
     Mem.layout_fr := λ g w, let (p, w') := layout_fr g w in (Ok p, g, w');
     Mem.community_multilevel := λ g w,
       let (c, w') := community_multilevel g w in (Ok c, g, w');
     Mem.degree := query (λ g, Ok (ig.degree g));
     Mem.vs_names := query ig.names;
     Mem.vs_len := query (λ g, Ok (ig.vcount g));
     Mem.get_edgelist := query (λ g, Ok (ig.get_edgelist g));
     Mem.neighborhood := λ k, query (λ g, ig.neighborhood g k);
     Mem.subgraph := λ vids, query (λ g, ig.subgraph g vids) |}.

(** The machine of the example scenario: the path graph and its layout
    are the two objects of the session. *)
Definition path_machine (w : Sim.World)
  : Machine (float := Z) (World := Sim.World) :=
  {| heap := {[ 0 := GraphObj Sim.path_graph;
                1 := LayoutObj (Sim.layout_fr Sim.path_graph w).1 ]};
     original_graph := 0;
     layout := 1;
     world := w |}.

End Mem.

(** * Proof tools *)

(** Decidable facts about concrete values, by evaluation. *)
Local Ltac by_computation := apply (bool_decide_unpack _); vm_compute; exact I.

(** [renderable] for a concrete graph and layout. *)
Local Ltac path_renderable :=
  split; [by_computation|split; [simpl; lia|split; [by eexists|reflexivity]]].

(** * Facts about the igraph model *)

Section igraph_facts.
Implicit Types (g : ig.Graph) (k : Z) (u v i j : nat) (sel vids : list nat).

Lemma wf_adjacent_lt g u v : ig.wf g → ig.adjacent g u v → v < ig.vcount g.
Proof.
  intros [Hes _] [H|H];
    apply (proj1 (Forall_forall _ _) Hes) in H; simpl in H; lia.
Qed.

Lemma neighborhood_Err g k :
  ¬ (0 ≤ k < Z.of_nat (ig.vcount g))%Z →
  ig.neighborhood g k
  = Err (if decide (k < 0 ∨ 2 ^ 63 ≤ k)%Z then TypeError else InternalError).
Proof.
  intros H. unfold ig.neighborhood. rewrite decide_False by done.
  by destruct (decide (k < 0 ∨ 2 ^ 63 ≤ k)%Z).
Qed.

Lemma neighborhood_Ok g k :
  (0 ≤ k < Z.of_nat (ig.vcount g))%Z →
  ∃ ns, ig.neighborhood g k = Ok (Z.to_nat k :: ns)
        ∧ NoDup (Z.to_nat k :: ns)
        ∧ Forall (λ v, v < ig.vcount g) (Z.to_nat k :: ns)
        ∧ (ig.wf g → ∀ v, v ∈ Z.to_nat k :: ns
                         ↔ v = Z.to_nat k ∨ ig.adjacent g (Z.to_nat k) v).
Proof.
  intros Hk. unfold ig.neighborhood. rewrite decide_True by done.
  eexists. split; [reflexivity|]. split; [|split].
  - apply NoDup_cons. split.
    + rewrite list_elem_of_filter. tauto.
    + apply NoDup_filter, NoDup_seq.
  - apply Forall_cons. split; [lia|].
    apply Forall_forall. intros v [_ Hv%elem_of_seq]%list_elem_of_filter. lia.
  - intros Hwf v. rewrite elem_of_cons, list_elem_of_filter, elem_of_seq.
    split.
    + intros [->|[[_ Ha] _]]; auto.
    + intros [->|Ha]; [by left|].
      destruct (decide (v = Z.to_nat k)) as [->|Hne]; [by left|right].
      split; [done|]. pose proof (wf_adjacent_lt _ _ _ Hwf Ha). lia.
Qed.

Lemma induced_vids_NoDup g vids : NoDup (ig.induced_vids g vids).
Proof. apply NoDup_filter, NoDup_seq. Qed.

Lemma elem_of_induced_vids g vids v :
  v ∈ ig.induced_vids g vids ↔ v ∈ vids ∧ v < ig.vcount g.
Proof.
  unfold ig.induced_vids. rewrite list_elem_of_filter, elem_of_seq.
  intuition lia.
Qed.

(** The new id of a kept vertex is its position in the list of kept
    vertices. *)
Lemma new_id_Some sel v i :
  NoDup sel → ig.new_id sel v = Some i ↔ sel !! i = Some v.
Proof.
  intros Hnd. unfold ig.new_id. split.
  - destruct (list_find _ sel) as [[i' x]|] eqn:E; [|done].
    simpl. intros [= ->].
    apply list_find_Some in E as (? & -> & _). done.
  - intros Hi.
    destruct (list_find (λ u, u = v) sel) as [[i' x]|] eqn:E.
    + apply list_find_Some in E as (Hi' & -> & _). simpl.
      f_equal. eapply NoDup_lookup; eauto.
    + apply list_find_None in E.
      exfalso. apply (proj1 (Forall_forall _ _) E v); [|done].
      eapply list_elem_of_lookup_2; eauto.
Qed.

Lemma new_id_None sel v : ig.new_id sel v = None ↔ v ∉ sel.
Proof.
  unfold ig.new_id. destruct (list_find _ sel) as [[i' x]|] eqn:E; simpl.
  - apply list_find_Some in E as (Hi' & -> & _).
    split; [done|]. intros []. eapply list_elem_of_lookup_2; eauto.
  - split; [|done]. intros _ Hin.
    apply list_find_None in E.
    by apply (proj1 (Forall_forall _ _) E v Hin).
Qed.

Lemma remap_edge_Some sel e e' :
  NoDup sel →
  ig.remap_edge sel e = Some e'
  ↔ sel !! e'.1 = Some e.1 ∧ sel !! e'.2 = Some e.2.
Proof.
  intros Hnd. unfold ig.remap_edge. destruct e as [u v], e' as [i j]. simpl.
  rewrite <- !(new_id_Some sel) by done.
  destruct (ig.new_id sel u) as [i'|]; simpl; [|by split; [|intros []]].
  destruct (ig.new_id sel v) as [j'|]; simpl.
  - split; [by intros [= -> ->]|by intros [[= ->] [= ->]]].
  - by split; [|intros []].
Qed.

(** Renumbering the kept edges back gives the edges with both ends kept,
    in the order of the original edge list. *)
Lemma remap_edges_original sel (es : list (nat * nat)) :
  NoDup sel →
  original_edge sel <$> omap (ig.remap_edge sel) es
  = filter (λ e, e.1 ∈ sel ∧ e.2 ∈ sel) es.
Proof.
  intros Hnd. induction es as [|e es IH]; [done|].
  rewrite filter_cons. csimpl.
  destruct (ig.remap_edge sel e) as [e'|] eqn:E.
  - apply remap_edge_Some in E as [H1 H2]; [|done].
    rewrite decide_True.
    2:{ split; eapply list_elem_of_lookup_2; eauto. }
    csimpl. rewrite IH. f_equal.
    unfold original_edge. destruct e as [u v]. simpl in *.
    by rewrite (list_lookup_total_correct _ _ _ H1),
               (list_lookup_total_correct _ _ _ H2).
  - rewrite decide_False; [done|].
    intros [H1 H2]. unfold ig.remap_edge in E.
    destruct (ig.new_id sel e.1) as [i|] eqn:E1; simpl in E.
    + destruct (ig.new_id sel e.2) as [j|] eqn:E2; simpl in E; [done|].
      by apply new_id_None in E2.
    + by apply new_id_None in E1.
Qed.

Lemma remap_edges_lt sel (es : list (nat * nat)) :
  NoDup sel →
  Forall (λ e, e.1 < length sel ∧ e.2 < length sel) (omap (ig.remap_edge sel) es).
Proof.
  intros Hnd. apply Forall_forall. intros e' (e & _ & He)%list_elem_of_omap.
  apply remap_edge_Some in He as [H1 H2]; [|done].
  split; eapply lookup_lt_Some; eauto.
Qed.

Lemma omap_lookup_names (ns : list string) sel :
  Forall (λ v, v < length ns) sel →
  length (omap (λ v, ns !! v) sel) = length sel
  ∧ ∀ i v, sel !! i = Some v → omap (λ v, ns !! v) sel !! i = ns !! v.
Proof.
  induction sel as [|v sel IH]; intros Hall.
  - split; [done|]. intros i v. by rewrite lookup_nil.
  - apply Forall_cons in Hall as [Hv Hall]. destruct (IH Hall) as [IH1 IH2].
    destruct (lookup_lt_is_Some_2 ns v Hv) as [n Hn].
    csimpl. rewrite Hn. csimpl. split; [by rewrite IH1|].
    intros [|i] v'; csimpl; [by intros [= <-]|]. apply IH2.
Qed.


(** What [subgraph] returns on vertex ids of the graph. *)
Lemma subgraph_Ok g vids :
  ig.wf g → Forall (λ v, v < ig.vcount g) vids →
  ∃ sub, ig.subgraph g vids = Ok sub
    ∧ ig.wf sub
    ∧ ig.vcount sub = length (ig.induced_vids g vids)
    ∧ original_edge (ig.induced_vids g vids) <$> ig.get_edgelist sub
      = filter (λ e, e.1 ∈ ig.induced_vids g vids ∧ e.2 ∈ ig.induced_vids g vids)
          (ig.get_edgelist g)
    ∧ (∀ ns, ig.vs_name g = Some ns →
         ∃ ns', ig.vs_name sub = Some ns'
           ∧ ∀ i v, ig.induced_vids g vids !! i = Some v → ns' !! i = ns !! v).
Proof.
  intros [Hes Hns] Hvids. unfold ig.subgraph. rewrite decide_True by done.
  set (sel := ig.induced_vids g vids).
  assert (NoDup sel) as Hnd by apply induced_vids_NoDup.
  assert (Forall (λ v, v < ig.vcount g) sel) as Hsel.
  { apply Forall_forall. intros v Hv. by apply elem_of_induced_vids in Hv as [_ ?]. }
  eexists. split; [reflexivity|]. simpl.
  split; [|split; [done|split; [by apply remap_edges_original|]]].
  - split; simpl; [by apply remap_edges_lt|].
    destruct (ig.vs_name g) as [ns|]; simpl; [|done].
    apply omap_lookup_names. by rewrite Hns.
  - intros ns Hg. rewrite Hg in Hns |- *. simpl. eexists. split; [done|].
    apply omap_lookup_names. by rewrite Hns.
Qed.

Lemma bump_length v (d : list nat) : length (ig.bump v d) = length d.
Proof. apply length_alter. Qed.

Lemma bump_lookup u (d : list nat) v :
  ig.bump u d !! v = (λ x, if decide (u = v) then S x else x) <$> d !! v.
Proof.
  unfold ig.bump. rewrite list_lookup_alter.
  destruct (decide (u = v)) as [->|]; by destruct (d !! v).
Qed.

Lemma degree_fold (es : list (nat * nat)) (d : list nat) v :
  foldl (λ d e, ig.bump e.2 (ig.bump e.1 d)) d es !! v
  = (λ x, x + (length (filter (λ e, e.1 = v) es)
               + length (filter (λ e, e.2 = v) es))) <$> d !! v.
Proof.
  revert d. induction es as [|[a b] es IH]; intros d.
  - simpl. destruct (d !! v); simpl; [f_equal; lia|done].
  - simpl. rewrite IH, !bump_lookup, !filter_cons. simpl.
    destruct (d !! v); simpl; [f_equal|done].
    repeat case_decide; simpl; lia.
Qed.

(** The degree vector has one entry per vertex: the number of edge ends
    on it. *)
Lemma degree_lookup g v :
  v < ig.vcount g → ig.degree g !! v = Some (incident_count g v).
Proof.
  intros Hv. unfold ig.degree, incident_count.
  rewrite degree_fold, lookup_replicate_2 by done. done.
Qed.

Lemma degree_length g : length (ig.degree g) = ig.vcount g.
Proof.
  unfold ig.degree.
  assert (∀ es d, length (foldl (λ d e, ig.bump e.2 (ig.bump e.1 d)) d es)
                  = length d) as H.
  { clear. induction es as [|e es IH]; intros d; simpl; [done|].
    by rewrite IH, !bump_length. }
  by rewrite H, length_replicate.
Qed.

End igraph_facts.

(** * Facts about clusterings and colour strings *)

Lemma clusters_length (memb : list nat) :
  memb ≠ [] → length (ig.clusters memb) = S (max_list memb).
Proof.
  destruct memb as [|m memb]; [done|]. intros _. unfold ig.clusters.
  by rewrite length_fmap, length_seq.
Qed.

Lemma clusters_lookup (memb : list nat) c nodes :
  ig.clusters memb !! c = Some nodes →
  nodes = filter (λ i, memb !! i = Some c) (seq 0 (length memb)).
Proof.
  destruct memb as [|m memb]; [done|]. unfold ig.clusters.
  rewrite list_lookup_fmap.
  destruct (seq 0 _ !! c) as [c'|] eqn:E; [|done].
  apply lookup_seq in E as [-> _]. simpl. by intros [= <-].
Qed.

(** Every vertex is in the cluster its membership entry names... *)
Lemma clusters_member (memb : list nat) i c :
  memb !! i = Some c →
  ∃ nodes, ig.clusters memb !! c = Some nodes ∧ i ∈ nodes.
Proof.
  intros Hi.
  assert (c ≤ max_list memb) as Hc.
  { apply max_list_elem_of_le. eapply list_elem_of_lookup_2; eauto. }
  exists (filter (λ i, memb !! i = Some c) (seq 0 (length memb))).
  split.
  - unfold ig.clusters. destruct memb as [|m0 memb0] eqn:Em; [done|].
    rewrite <- Em in *.
    rewrite list_lookup_fmap, lookup_seq_lt by lia. done.
  - apply list_elem_of_filter. split; [done|].
    apply elem_of_seq. apply lookup_lt_Some in Hi. lia.
Qed.

(** ... and in no other. *)
Lemma clusters_disjoint (memb : list nat) i c nodes :
  ig.clusters memb !! c = Some nodes → i ∈ nodes → memb !! i = Some c.
Proof.
  intros ->%clusters_lookup Hi. by apply list_elem_of_filter in Hi as [? _].
Qed.

Lemma format_02x_byte_nat :
  forallb (λ n, is_hex2 (format_02x (Z.of_nat n))) (seq 0 256) = true.
Proof. vm_compute. reflexivity. Qed.

(** A value of the range of a colour channel prints as two digits. *)
Lemma format_02x_byte (v : Z) :
  (0 ≤ v ≤ 255)%Z → is_hex2 (format_02x v) = true.
Proof.
  intros Hv. pose proof format_02x_byte_nat as H.
  rewrite forallb_forall in H.
  specialize (H (Z.to_nat v)). rewrite Z2Nat.id in H by lia.
  apply H, list_elem_of_In, elem_of_seq. lia.
Qed.

Lemma format_color_rgb (r g b : Z) :
  (0 ≤ r ≤ 255)%Z → (0 ≤ g ≤ 255)%Z → (0 ≤ b ≤ 255)%Z →
  is_rgb_color (format_color r g b) = true.
Proof.
  intros Hr%format_02x_byte Hg%format_02x_byte Hb%format_02x_byte.
  unfold format_color.
  destruct (format_02x r) as [|r1 [|r2 [|]]]; try done.
  destruct (format_02x g) as [|g1 [|g2 [|]]]; try done.
  destruct (format_02x b) as [|b1 [|b2 [|]]]; try done.
  simpl in *.
  apply andb_prop in Hr as [-> ->], Hg as [-> ->], Hb as [-> ->]. done.
Qed.

Lemma format_02x_inj_nat :
  forallb (λ a, forallb (λ b,
    implb (bool_decide (format_02x (Z.of_nat a) = format_02x (Z.of_nat b)))
          (a =? b)) (seq 0 256)) (seq 0 256) = true.
Proof. vm_compute. reflexivity. Qed.

Lemma format_02x_inj (a b : Z) :
  (0 ≤ a ≤ 255)%Z → (0 ≤ b ≤ 255)%Z →
  format_02x a = format_02x b → a = b.
Proof.
  intros Ha Hb Heq. pose proof format_02x_inj_nat as H.
  assert (∀ v, (0 ≤ v ≤ 255)%Z → In (Z.to_nat v) (seq 0 256)) as Hin.
  { intros v Hv. apply (proj1 (list_elem_of_In _ _)), elem_of_seq. lia. }
  rewrite forallb_forall in H. specialize (H _ (Hin a Ha)).
  rewrite forallb_forall in H. specialize (H _ (Hin b Hb)).
  rewrite !Z2Nat.id in H by lia.
  rewrite bool_decide_eq_true_2 in H by done. simpl in H.
  apply Nat.eqb_eq in H. lia.
Qed.

(** Colour strings determine the channel values. *)
Lemma format_color_inj (r g b r' g' b' : Z) :
  (0 ≤ r ≤ 255)%Z → (0 ≤ g ≤ 255)%Z → (0 ≤ b ≤ 255)%Z →
  (0 ≤ r' ≤ 255)%Z → (0 ≤ g' ≤ 255)%Z → (0 ≤ b' ≤ 255)%Z →
  format_color r g b = format_color r' g' b' →
  r = r' ∧ g = g' ∧ b = b'.
Proof.
  intros Hr Hg Hb Hr' Hg' Hb' Heq.
  pose proof (format_02x_byte r Hr) as Er.
  pose proof (format_02x_byte g Hg) as Eg.
  pose proof (format_02x_byte b Hb) as Eb.
  pose proof (format_02x_byte r' Hr') as Er'.
  pose proof (format_02x_byte g' Hg') as Eg'.
  pose proof (format_02x_byte b' Hb') as Eb'.
  pose proof (format_02x_inj r r' Hr Hr') as Ir.
  pose proof (format_02x_inj g g' Hg Hg') as Ig.
  pose proof (format_02x_inj b b' Hb Hb') as Ib.
  unfold format_color in Heq.
  destruct (format_02x r) as [|r1 [|r2 [|]]]; try done.
  destruct (format_02x g) as [|g1 [|g2 [|]]]; try done.
  destruct (format_02x b) as [|b1 [|b2 [|]]]; try done.
  destruct (format_02x r') as [|r1' [|r2' [|]]]; try done.
  destruct (format_02x g') as [|g1' [|g2' [|]]]; try done.
  destruct (format_02x b') as [|b1' [|b2' [|]]]; try done.
  cbv [String.append] in Heq. injection Heq as -> -> -> -> -> ->.
  auto.
Qed.

(** * Facts about [create_network_figure] *)

Section figure_facts.
Context {float World : Type}.
Variable randint : Z → Z → World → Z * World.
Variable community_multilevel : ig.Graph → World → list nat * World.

Hypothesis randint_range :
  ∀ a b w, (a ≤ b)%Z → (a ≤ (randint a b w).1 ≤ b)%Z.

Implicit Types (cc : gmap nat string) (w : World) (layout : ig.Layout float).

Lemma assign_color_lookup color nodes cc i :
  assign_color color nodes cc !! i
  = if decide (i ∈ nodes) then Some color else cc !! i.
Proof.
  unfold assign_color. revert cc.
  induction nodes as [|n nodes IH]; intros cc; cbn [foldl].
  - rewrite decide_False; [done|]. apply not_elem_of_nil.
  - rewrite IH. destruct (decide (i ∈ nodes)) as [Hin|Hnin].
    + rewrite decide_True; [done|]. by right.
    + destruct (decide (i = n)) as [->|Hne].
      * rewrite lookup_insert_eq, decide_True; [done|]. by left.
      * rewrite lookup_insert_ne by done. rewrite decide_False; [done|].
        by intros [?|?]%elem_of_cons.
Qed.

(** The loop over the communities draws one colour per community, in
    order, and assigns them as [paint] does. *)
Lemma color_communities_draw communities cc w :
  color_communities randint communities cc w
  = (Ok (paint communities (draw_colors randint (length communities) w).1 cc),
     (draw_colors randint (length communities) w).2).
Proof.
  revert cc w. induction communities as [|nodes rest IH]; intros cc w; [done|].
  simpl. unfold mbind, W_bind, call.
  destruct (randint 0 255 w) as [r w1].
  destruct (randint 0 255 w1) as [g w2].
  destruct (randint 0 255 w2) as [b w3].
  rewrite IH. by destruct (draw_colors randint (length rest) w3).
Qed.

Lemma draw_colors_length k w : length (draw_colors randint k w).1 = k.
Proof.
  revert w. induction k as [|k IH]; intros w; [done|]. simpl.
  destruct (randint 0 255 w) as [r w1].
  destruct (randint 0 255 w1) as [g w2].
  destruct (randint 0 255 w2) as [b w3].
  specialize (IH w3). destruct (draw_colors randint k w3). simpl in *. lia.
Qed.

Lemma draw_colors_rgb k w :
  Forall (λ c, is_rgb_color c = true) (draw_colors randint k w).1.
Proof.
  revert w. induction k as [|k IH]; intros w; [by constructor|]. simpl.
  pose proof (randint_range 0 255 w) as Hr.
  destruct (randint 0 255 w) as [r w1].
  pose proof (randint_range 0 255 w1) as Hg.
  destruct (randint 0 255 w1) as [g w2].
  pose proof (randint_range 0 255 w2) as Hb.
  destruct (randint 0 255 w2) as [b w3].
  specialize (IH w3). destruct (draw_colors randint k w3). simpl in *.
  constructor; [|done]. apply format_color_rgb; auto with lia.
Qed.

Lemma after_draws_add a n w :
  after_draws randint (a + n) w = after_draws randint n (after_draws randint a w).
Proof. revert w. induction a as [|a IH]; intros w; [done|]. apply IH. Qed.

Lemma draw_add a n w :
  draw randint (a + n) w = draw randint n (after_draws randint a w).
Proof. unfold draw. by rewrite after_draws_add. Qed.

Lemma draw_range n w : (0 ≤ draw randint n w ≤ 255)%Z.
Proof. apply randint_range. lia. Qed.

(** The colours [draw_colors] returns, call by call: community [c] gets
    the values of the calls [3 c], [3 c + 1] and [3 c + 2]. *)
Lemma draw_colors_draws k w :
  draw_colors randint k w
  = ((λ c, format_color (draw randint (3 * c) w) (draw randint (3 * c + 1) w)
                        (draw randint (3 * c + 2) w)) <$> seq 0 k,
     after_draws randint (3 * k) w).
Proof.
  revert w. induction k as [|k IH]; intros w; [done|].
  cbn [draw_colors].
  destruct (randint 0 255 w) as [r w1] eqn:E1.
  destruct (randint 0 255 w1) as [g w2] eqn:E2.
  destruct (randint 0 255 w2) as [b w3] eqn:E3.
  assert (after_draws randint 3 w = w3) as Hw3.
  { cbn [after_draws]. rewrite E1. cbn [snd]. rewrite E2. cbn [snd].
    by rewrite E3. }
  rewrite IH. f_equal.
  - rewrite <- cons_seq, <- fmap_S_seq, fmap_cons, <- list_fmap_compose.
    f_equal.
    + unfold draw. cbn [Nat.mul Nat.add after_draws].
      rewrite E1. cbn [fst snd]. rewrite E2. cbn [fst snd]. by rewrite E3.
    + apply list_fmap_ext. intros _ c _. cbn [compose].
      replace (3 * S c) with (3 + 3 * c) by lia.
      rewrite <- !(Nat.add_assoc 3).
      by rewrite (draw_add 3 (3 * c) w), (draw_add 3 (3 * c + 1) w),
                 (draw_add 3 (3 * c + 2) w), Hw3.
  - replace (3 * S k) with (3 + 3 * k) by lia.
    by rewrite after_draws_add, Hw3.
Qed.

Lemma paint_other communities colors cc i :
  (∀ nodes, nodes ∈ communities → i ∉ nodes) →
  paint communities colors cc !! i = cc !! i.
Proof.
  unfold paint. revert colors cc.
  induction communities as [|nodes rest IH]; intros colors cc Hi; [done|].
  destruct colors as [|col colors]; [done|]. simpl.
  rewrite IH.
  - rewrite assign_color_lookup, decide_False; [done|]. apply Hi. by left.
  - intros nodes' ?. apply Hi. by right.
Qed.

Lemma paint_lookup communities colors cc c nodes col i :
  disjoint_communities communities →
  communities !! c = Some nodes → colors !! c = Some col → i ∈ nodes →
  paint communities colors cc !! i = Some col.
Proof.
  revert colors cc c.
  induction communities as [|n0 rest IH]; intros colors cc c Hdis Hc Hcol Hi;
    [done|].
  destruct colors as [|col0 colors]; [done|].
  change (paint (n0 :: rest) (col0 :: colors) cc)
    with (paint rest colors (assign_color col0 n0 cc)).
  destruct c as [|c]; simpl in Hc, Hcol.
  - injection Hc as ->. injection Hcol as ->.
    rewrite paint_other.
    + rewrite assign_color_lookup, decide_True; done.
    + intros nodes' [k Hk]%list_elem_of_lookup_1 Hi'.
      by specialize (Hdis 0 (S k) nodes nodes' i eq_refl Hk Hi Hi').
  - eapply IH; eauto.
    intros c1 c2 n1 n2 j H1 H2 Hj1 Hj2.
    by specialize (Hdis (S c1) (S c2) n1 n2 j H1 H2 Hj1 Hj2) as [= ->].
Qed.

Lemma clusters_disjoint_communities (memb : list nat) :
  disjoint_communities (ig.clusters memb).
Proof.
  intros c1 c2 n1 n2 i H1 H2 Hi1 Hi2.
  pose proof (clusters_disjoint _ _ _ _ H1 Hi1).
  pose proof (clusters_disjoint _ _ _ _ H2 Hi2). congruence.
Qed.

Lemma lookup_colors_Ok cc ids :
  (∀ i, i ∈ ids → is_Some (cc !! i)) →
  ∃ cs, lookup_colors cc ids = Ok cs
        ∧ Forall2 (λ i c, cc !! i = Some c) ids cs.
Proof.
  induction ids as [|i ids IH]; intros Hall.
  - exists []. by split; [|constructor].
  - destruct (Hall i) as [c Hc]; [by left|].
    destruct IH as (cs & Hcs & HF); [intros; apply Hall; by right|].
    exists (c :: cs). simpl. rewrite Hc, Hcs. split; [done|by constructor].
Qed.

Lemma edge_segments_Ok layout edges edge_x edge_y :
  Forall (λ e, e.1 < length layout ∧ e.2 < length layout) edges →
  edge_segments layout edges edge_x edge_y
  = Ok (edge_x ++ segments fst layout edges, edge_y ++ segments snd layout edges).
Proof.
  revert edge_x edge_y.
  induction edges as [|[u v] edges IH]; intros edge_x edge_y Hall.
  - unfold segments. simpl. by rewrite !app_nil_r.
  - apply Forall_cons in Hall as [[Hu Hv] Hall]. simpl in Hu, Hv.
    destruct (lookup_lt_is_Some_2 layout u Hu) as [[x0 y0] H0].
    destruct (lookup_lt_is_Some_2 layout v Hv) as [[x1 y1] H1].
    cbn [edge_segments fst snd]. rewrite H0, H1, IH by done.
    unfold segments. csimpl. rewrite H0, H1. simpl.
    by rewrite <- !app_assoc.
Qed.

End figure_facts.

Lemma segments_length {float A} (proj : float * float → A)
    (layout : ig.Layout float) (edges : list (nat * nat)) :
  length (segments proj layout edges) = 3 * length edges.
Proof.
  unfold segments. induction edges as [|e edges IH]; [done|].
  csimpl. rewrite IH. lia.
Qed.

(** Edge [i] owns positions [3 i], [3 i + 1] and [3 i + 2] of the list:
    its two ends, then the gap. *)
Lemma segments_lookup {float A} (proj : float * float → A)
    (layout : ig.Layout float) (edges : list (nat * nat)) i e :
  edges !! i = Some e →
  segments proj layout edges !! (3 * i) = Some (proj <$> layout !! e.1)
  ∧ segments proj layout edges !! (3 * i + 1) = Some (proj <$> layout !! e.2)
  ∧ segments proj layout edges !! (3 * i + 2) = Some None.
Proof.
  unfold segments. revert i. induction edges as [|e0 edges IH]; intros i Hi; [done|].
  destruct i as [|i].
  - csimpl. by injection Hi as ->.
  - replace (3 * S i + 1) with (S (S (S (3 * i + 1)))) by lia.
    replace (3 * S i + 2) with (S (S (S (3 * i + 2)))) by lia.
    replace (3 * S i) with (S (S (S (3 * i)))) by lia.
    apply (IH i Hi).
Qed.

Lemma node_name_inj : Inj (=) (=) node_name.
Proof.
  intros i j H. unfold node_name in H.
  change ("Node-" +:+ pretty i)
    with (String "N" (String "o" (String "d" (String "e" (String "-" (pretty i))))))
    in H.
  change ("Node-" +:+ pretty j)
    with (String "N" (String "o" (String "d" (String "e" (String "-" (pretty j))))))
    in H.
  injection H as H. by apply pretty_nat_inj in H.
Qed.

(** * Facts about the application *)

Section App_facts.
Context {float RelayoutData World : Type}.
Variable randint : Z → Z → World → Z * World.
Variable Erdos_Renyi : nat → nat → World → ig.Graph * World.
Variable layout_fr : ig.Graph → World → ig.Layout float * World.
Variable community_multilevel : ig.Graph → World → list nat * World.

(** What the libraries promise about their results. *)
Hypothesis randint_range :
  ∀ a b w, (a ≤ b)%Z → (a ≤ (randint a b w).1 ≤ b)%Z.
Hypothesis Erdos_Renyi_spec :
  ∀ n m w, m ≤ n * (n - 1) / 2 →
    ig.vcount (Erdos_Renyi n m w).1 = n
    ∧ length (ig.get_edgelist (Erdos_Renyi n m w).1) = m
    ∧ ig.wf (Erdos_Renyi n m w).1.
Hypothesis layout_fr_length :
  ∀ g w, length (layout_fr g w).1 = ig.vcount g.
Hypothesis community_multilevel_length :
  ∀ g w, length (community_multilevel g w).1 = ig.vcount g.

Implicit Types (g : ig.Graph) (w : World) (layout : ig.Layout float).
Implicit Types (s : State (float := float) (World := World)).

Local Abbreviation build := (create_network_figure randint community_multilevel).
Local Abbreviation on_click := (update_subgraph_plot randint layout_fr community_multilevel).
Local Abbreviation on_relayout :=
  (update_original_network_plot (RelayoutData := RelayoutData)
     randint community_multilevel).

(** The figure [create_network_figure] returns on a renderable graph. *)
Lemma create_network_figure_Ok g layout w :
  renderable g layout →
  let memb := (community_multilevel g w).1 in
  let drawn := draw_colors randint (length (ig.clusters memb))
                 (community_multilevel g w).2 in
  ∃ ns colors,
    build g layout w
    = (Ok {| go.data :=
               [edge_trace (segments fst layout (ig.get_edgelist g))
                           (segments snd layout (ig.get_edgelist g));
                node_trace layout.*1 layout.*2 ns colors (ig.degree g)];
             go.layout := figure_layout |},
       drawn.2)
    ∧ ig.vs_name g = Some ns
    ∧ length ns = ig.vcount g
    ∧ length colors = ig.vcount g
    ∧ ∀ i c, memb !! i = Some c →
        ∃ col, drawn.1 !! c = Some col ∧ colors !! i = Some col.
Proof.
  intros ([Hes Hns] & Hpos & [ns Hname] & Hlay). cbv zeta.
  rewrite Hname in Hns.
  pose proof (community_multilevel_length g w) as Hmemb.
  destruct (community_multilevel g w) as [memb w1] eqn:Ecm. simpl in *.
  pose proof (draw_colors_length randint (length (ig.clusters memb)) w1) as Hlen.
  destruct (draw_colors randint (length (ig.clusters memb)) w1)
    as [cols w2] eqn:Edraw. simpl in *.
  assert (∀ i c, memb !! i = Some c →
            ∃ col, cols !! c = Some col
                   ∧ paint (ig.clusters memb) cols ∅ !! i = Some col) as Hpaint.
  { intros i c Hi. destruct (clusters_member _ _ _ Hi) as (nodes & Hc & Hin).
    destruct (lookup_lt_is_Some_2 cols c) as [col Hcol].
    { rewrite Hlen. by eapply lookup_lt_Some. }
    exists col. split; [done|].
    eapply paint_lookup; eauto using clusters_disjoint_communities. }
  destruct (lookup_colors_Ok (paint (ig.clusters memb) cols ∅)
              (seq 0 (ig.vcount g))) as (colors & Hcolors & HF).
  { intros i Hi%elem_of_seq.
    destruct (lookup_lt_is_Some_2 memb i) as [c Hc]; [lia|].
    destruct (Hpaint i c Hc) as (col & _ & ->). by eexists. }
  assert (length colors = ig.vcount g) as Hcl.
  { apply Forall2_length in HF. by rewrite length_seq in HF. }
  exists ns, colors. split; [|split; [done|split; [done|split; [done|]]]].
  - unfold create_network_figure, mbind, W_bind, lift, call, unzip_layout.
    destruct layout as [|p layout]; [simpl in Hlay; lia|].
    rewrite Ecm, color_communities_draw, Edraw. simpl.
    unfold ig.names. rewrite Hname, Hcolors.
    rewrite edge_segments_Ok; [done|].
    by rewrite Hlay.
  - intros i c Hi. destruct (Hpaint i c Hi) as (col & Hcol & Hp).
    exists col. split; [done|].
    assert (i < ig.vcount g) as Hlt.
    { rewrite <- Hmemb. by eapply lookup_lt_Some. }
    destruct (lookup_lt_is_Some_2 colors i) as [col' Hcol']; [lia|].
    pose proof (Forall2_lookup_lr _ _ _ i i col' HF
                  (lookup_seq_lt 0 _ _ Hlt) Hcol') as H.
    simpl in H. congruence.
Qed.

(** What the click callback does with an index of the session graph. *)
Lemma click_subgraph s k :
  ig.wf (original_graph s) →
  (0 ≤ k < Z.of_nat (ig.vcount (original_graph s)))%Z →
  ∃ ns sub,
    ig.neighborhood (original_graph s) k = Ok ns
    ∧ ig.subgraph (original_graph s) ns = Ok sub
    ∧ on_click (Some (click k)) s
      = run (λ w, let (subgraph_layout, w') := layout_fr sub w in
                  build sub subgraph_layout w') s
    ∧ (∀ v, v ∈ ig.induced_vids (original_graph s) ns
            ↔ v = Z.to_nat k ∨ ig.adjacent (original_graph s) (Z.to_nat k) v)
    ∧ ig.wf sub
    ∧ ig.vcount sub = length (ig.induced_vids (original_graph s) ns)
    ∧ original_edge (ig.induced_vids (original_graph s) ns) <$> ig.get_edgelist sub
      = filter (λ e, e.1 ∈ ig.induced_vids (original_graph s) ns
                     ∧ e.2 ∈ ig.induced_vids (original_graph s) ns)
          (ig.get_edgelist (original_graph s))
    ∧ (∀ names, ig.vs_name (original_graph s) = Some names →
         ∃ names', ig.vs_name sub = Some names'
           ∧ ∀ i v, ig.induced_vids (original_graph s) ns !! i = Some v →
                    names' !! i = names !! v).
Proof.
  intros Hwf Hk.
  destruct (neighborhood_Ok _ _ Hk) as (ns0 & Hnb & Hnd & Hlt & Hmem).
  destruct (subgraph_Ok _ _ Hwf Hlt) as (sub & Hsub & Hwfsub & Hcount & Hedges & Hnames).
  exists (Z.to_nat k :: ns0), sub.
  split; [done|split; [done|split; [|split; [|done]]]].
  - unfold update_subgraph_plot, click. simpl.
    unfold run, mbind, W_bind, lift, call, of_option. simpl.
    rewrite Hnb, Hsub. by destruct (layout_fr sub (world s)).
  - intros v. rewrite elem_of_induced_vids, (Hmem Hwf v).
    split; [tauto|]. intros Hv. split; [done|].
    destruct Hv as [->|Hv]; [lia|by eapply wf_adjacent_lt].
Qed.

(** ** The claims *)

(** C1.  A click on a valid node index [k] of the full graph hands the
    figure builder the subgraph induced by the closed neighbourhood of [k]
    in the session graph.  [nodes] lists, for each vertex of the subgraph,
    the session vertex it stands for: these are [k] and the vertices
    sharing an edge with [k], each once; the subgraph keeps their names,
    and its edges, read in session ids, are exactly the session edges
    with both ends in [nodes]. *)
Theorem C1_click_renders_induced_neighborhood s k :
  ig.wf (original_graph s) →
  (0 ≤ k < Z.of_nat (ig.vcount (original_graph s)))%Z →
  ∃ nodes sub,
    on_click (Some (click k)) s
    = run (λ w, let (subgraph_layout, w') := layout_fr sub w in
                build sub subgraph_layout w') s
    ∧ NoDup nodes
    ∧ (∀ v, v ∈ nodes
            ↔ v = Z.to_nat k ∨ ig.adjacent (original_graph s) (Z.to_nat k) v)
    ∧ ig.wf sub
    ∧ ig.vcount sub = length nodes
    ∧ (∀ names, ig.vs_name (original_graph s) = Some names →
         ∃ names', ig.vs_name sub = Some names'
           ∧ ∀ i v, nodes !! i = Some v → names' !! i = names !! v)
    ∧ original_edge nodes <$> ig.get_edgelist sub
      ≡ₚ filter (λ e, e.1 ∈ nodes ∧ e.2 ∈ nodes)
           (ig.get_edgelist (original_graph s)).
Proof.
  intros Hwf Hk.
  destruct (click_subgraph s k Hwf Hk)
    as (ns & sub & _ & _ & Hrun & Hmem & Hwfsub & Hcount & Hedges & Hnames).
  exists (ig.induced_vids (original_graph s) ns), sub.
  repeat split; try done.
  - apply induced_vids_NoDup.
  - by apply Hmem.
  - by apply Hmem.
  - by destruct Hwfsub.
  - by destruct Hwfsub.
  - by rewrite Hedges.
Qed.

(** C2.  Startup always succeeds, and the graph it creates has exactly 50
    vertices and 100 edges, vertex [i] carrying the name ["Node-i"]; the
    names are pairwise different. *)
Theorem C2_startup_graph w :
  ∃ s names,
    startup Erdos_Renyi layout_fr w = Ok s
    ∧ ig.vcount (original_graph s) = 50
    ∧ length (ig.get_edgelist (original_graph s)) = 100
    ∧ ig.vs_name (original_graph s) = Some names
    ∧ length names = 50
    ∧ (∀ i, i < 50 → names !! i = Some ("Node-" +:+ pretty i))
    ∧ NoDup names.
Proof.
  destruct (Erdos_Renyi_spec 50 100 w) as (Hn & Hm & Hwf); [by vm_compute; lia|].
  unfold startup, create_graph, mbind, W_bind, lift, call, mret, W_ret.
  destruct (Erdos_Renyi 50 100 w) as [g w1]. cbn [fst snd] in *.
  unfold ig.set_vs_name.
  rewrite decide_True by (by rewrite length_fmap, length_seq).
  destruct (layout_fr _ w1) as [lay w2].
  eexists _, (node_name <$> seq 0 50). split; [reflexivity|].
  cbn [original_graph ig.vcount ig.get_edgelist ig.vs_name].
  split; [done|split; [done|split; [done|split; [|split]]]].
  - by rewrite length_fmap, length_seq.
  - intros i Hi. rewrite list_lookup_fmap, lookup_seq_lt by done. done.
  - apply (@NoDup_fmap_2 _ _ node_name node_name_inj), NoDup_seq.
Qed.

(** C3.  Without click data the click callback returns the empty figure,
    whatever the state, and leaves the state as it is: no trace at all,
    no legend, and on both axes no grid, no zero line and no tick
    labels. *)
Theorem C3_no_click_empty_figure s :
  on_click None s = (Ok create_empty_figure, s)
  ∧ go.data (create_empty_figure (float := float)) = []
  ∧ go.showlegend (go.layout (create_empty_figure (float := float))) = false
  ∧ go.xaxis (go.layout (create_empty_figure (float := float)))
    = {| go.showgrid := false; go.zeroline := false; go.showticklabels := false |}
  ∧ go.yaxis (go.layout (create_empty_figure (float := float)))
    = {| go.showgrid := false; go.zeroline := false; go.showticklabels := false |}.
Proof. done. Qed.

(** C4.  In one figure build every vertex gets exactly one colour, and it
    is the colour drawn for its community.  With [memb] the membership
    vector community detection returned for this build, the build makes
    three [randint(0, 255)] calls per community and no other; the marker
    of a vertex of community [c] has the colour formatted from the values
    of the calls [3 c], [3 c + 1] and [3 c + 2], a [#] followed by six
    hexadecimal digits.  So two vertices of the same community have the
    same colour, and two vertices have the same colour exactly when the
    values drawn for their communities are the same. *)
Theorem C4_one_color_per_community g layout w :
  renderable g layout →
  let memb := (community_multilevel g w).1 in
  let w1 := (community_multilevel g w).2 in
  let drawn c := (draw randint (3 * c) w1, draw randint (3 * c + 1) w1,
                  draw randint (3 * c + 2) w1) in
  let color c := format_color (drawn c).1.1 (drawn c).1.2 (drawn c).2 in
  ∃ fig,
    build g layout w
    = (Ok fig, after_draws randint (3 * length (ig.clusters memb)) w1)
    ∧ length (marker_colors fig) = ig.vcount g
    ∧ (∀ i c, memb !! i = Some c →
         marker_colors fig !! i = Some (color c)
         ∧ is_rgb_color (color c) = true)
    ∧ (∀ i j c, memb !! i = Some c → memb !! j = Some c →
         ∃ col, is_rgb_color col = true
                ∧ marker_colors fig !! i = Some col
                ∧ marker_colors fig !! j = Some col)
    ∧ (∀ i j ci cj, memb !! i = Some ci → memb !! j = Some cj →
         marker_colors fig !! i = marker_colors fig !! j
         ↔ drawn ci = drawn cj).
Proof.
  intros Hr memb w1 drawn color.
  destruct (create_network_figure_Ok g layout w Hr)
    as (ns & colors & Hfig & _ & _ & Hlen & Hcol).
  fold memb w1 in Hfig, Hcol.
  rewrite draw_colors_draws in Hfig, Hcol. cbn [fst snd] in Hfig, Hcol.
  assert (∀ i c, memb !! i = Some c → colors !! i = Some (color c)) as Hc.
  { intros i c Hi. destruct (Hcol i c Hi) as (col & Hl & ->).
    rewrite list_lookup_fmap in Hl.
    destruct (seq 0 _ !! c) as [c'|] eqn:Ec; [|done].
    apply lookup_seq in Ec as [-> _]. simpl in Hl. by injection Hl as <-. }
  assert (∀ c, is_rgb_color (color c) = true) as Hrgb.
  { intros c. apply format_color_rgb; apply draw_range, randint_range. }
  eexists. split; [exact Hfig|]. split; [done|].
  cbn [marker_colors go.data go.marker go.color node_trace lookup list_lookup].
  split; [by auto|]. split.
  - intros i j c Hi Hj. exists (color c). auto.
  - intros i j ci cj Hi Hj. rewrite (Hc i ci Hi), (Hc j cj Hj). split.
    + intros Heq. apply (inj Some) in Heq. unfold color, drawn in Heq.
      cbn [fst snd] in Heq. unfold drawn.
      apply format_color_inj in Heq as (-> & -> & ->);
        [done|apply draw_range, randint_range..].
    + unfold color. by intros ->.
Qed.

(** C5.  The degree attached to marker [v] for the hover text is the
    number of edge ends on [v] in the graph being rendered, so that an
    edge from [v] to [v] counts twice. *)
Theorem C5_hover_degree g layout w :
  renderable g layout →
  ∃ fig w',
    build g layout w = (Ok fig, w')
    ∧ length (marker_degrees fig) = ig.vcount g
    ∧ ∀ v, v < ig.vcount g →
        marker_degrees fig !! v = Some (incident_count g v).
Proof.
  intros Hr.
  destruct (create_network_figure_Ok g layout w Hr)
    as (ns & colors & Hfig & _).
  eexists _, _. split; [exact Hfig|].
  split; [apply degree_length|]. intros v Hv. by apply degree_lookup.
Qed.

(** C6.  The first trace of a built figure is the edge trace.  Its [x]
    and [y] lists have three entries per edge: for edge [i] from [u] to
    [v], the coordinates of [layout[u]], those of [layout[v]], and a
    gap. *)
Theorem C6_edge_segments g layout w :
  renderable g layout →
  ∃ fig w' trace,
    build g layout w = (Ok fig, w')
    ∧ go.data fig !! 0 = Some trace
    ∧ go.mode trace = "lines"
    ∧ length (go.x trace) = 3 * length (ig.get_edgelist g)
    ∧ length (go.y trace) = 3 * length (ig.get_edgelist g)
    ∧ ∀ i u v, ig.get_edgelist g !! i = Some (u, v) →
        ∃ x0 y0 x1 y1,
          layout !! u = Some (x0, y0) ∧ layout !! v = Some (x1, y1)
          ∧ go.x trace !! (3 * i) = Some (Some x0)
          ∧ go.x trace !! (3 * i + 1) = Some (Some x1)
          ∧ go.x trace !! (3 * i + 2) = Some None
          ∧ go.y trace !! (3 * i) = Some (Some y0)
          ∧ go.y trace !! (3 * i + 1) = Some (Some y1)
          ∧ go.y trace !! (3 * i + 2) = Some None.
Proof.
  intros Hr.
  destruct (create_network_figure_Ok g layout w Hr)
    as (ns & colors & Hfig & _).
  destruct Hr as ([Hes _] & _ & _ & Hlay).
  eexists _, _, _. split; [exact Hfig|]. split; [reflexivity|].
  cbn [go.x go.y go.mode edge_trace].
  split; [done|]. rewrite !segments_length. split; [done|split; [done|]].
  intros i u v Hi.
  assert (u < length layout ∧ v < length layout) as [Hu Hv].
  { rewrite Hlay. apply (proj1 (Forall_lookup _ _) Hes i (u, v) Hi). }
  destruct (lookup_lt_is_Some_2 layout u Hu) as [[x0 y0] H0].
  destruct (lookup_lt_is_Some_2 layout v Hv) as [[x1 y1] H1].
  exists x0, y0, x1, y1.
  destruct (segments_lookup fst layout _ i _ Hi) as (Hx0 & Hx1 & Hx2).
  destruct (segments_lookup snd layout _ i _ Hi) as (Hy0 & Hy1 & Hy2).
  cbn [fst snd] in *. rewrite H0 in Hx0, Hy0. rewrite H1 in Hx1, Hy1.
  done.
Qed.

(** What the click callback does with an index outside the session
    graph. *)
Lemma update_subgraph_plot_Err s k :
  ¬ (0 ≤ k < Z.of_nat (ig.vcount (original_graph s)))%Z →
  on_click (Some (click k)) s
  = (Err (if decide (k < 0 ∨ 2 ^ 63 ≤ k)%Z then TypeError else InternalError),
     s).
Proof.
  intros Hk. unfold update_subgraph_plot, click. simpl.
  unfold run, mbind, W_bind, lift, call, of_option. simpl.
  rewrite neighborhood_Err by done. by destruct s.
Qed.

(** C7, as amended.  A click whose node index [k] is outside the session
    graph makes the click callback fail, and the error depends on [k]:
    the builtin TypeError when [k] is negative or at least [2^63],
    igraph's InternalError when [k] is from the vertex count up to below
    [2^63].  The error is the callback's result, and the state after the
    call (session graph, stored layout, random source) is the state
    before it. *)
Theorem C7_click_out_of_range s k :
  ¬ (0 ≤ k < Z.of_nat (ig.vcount (original_graph s)))%Z →
  on_click (Some (click k)) s
  = (Err (if decide (k < 0 ∨ 2 ^ 63 ≤ k)%Z then TypeError else InternalError),
     s).
Proof. apply update_subgraph_plot_Err. Qed.

Lemma run_session {A} (m : W A) s :
  original_graph (run m s).2 = original_graph s
  ∧ layout (run m s).2 = layout s.
Proof. unfold run. by destruct (m (world s)). Qed.

Lemma dispatch_session s (ev : Event (RelayoutData := RelayoutData)) :
  original_graph (dispatch randint layout_fr community_multilevel s ev)
  = original_graph s
  ∧ layout (dispatch randint layout_fr community_multilevel s ev) = layout s.
Proof.
  destruct ev as [r|[cd|]]; simpl; [apply run_session|apply run_session|done].
Qed.

Lemma renderable_lookup g layout i :
  renderable g layout → i < ig.vcount g → ∃ x y, layout !! i = Some (x, y).
Proof.
  intros (_ & _ & _ & Hlay) Hi.
  destruct (lookup_lt_is_Some_2 layout i) as [[x y] H]; [lia|]. eauto.
Qed.

(** The subgraph a click on a vertex of a renderable session graph
    derives is renderable with the layout computed for it. *)
Lemma click_subgraph_renderable s k ns sub w :
  renderable (original_graph s) (layout s) →
  (0 ≤ k < Z.of_nat (ig.vcount (original_graph s)))%Z →
  ig.neighborhood (original_graph s) k = Ok ns →
  ig.subgraph (original_graph s) ns = Ok sub →
  renderable sub (layout_fr sub w).1
  ∧ ∃ j, ig.induced_vids (original_graph s) ns !! j = Some (Z.to_nat k).
Proof.
  intros (Hwf & _ & [names Hnames] & _) Hk Hnb Hsub.
  destruct (click_subgraph s k Hwf Hk)
    as (ns' & sub' & Hnb' & Hsub' & _ & Hmem & Hwfsub & Hcount & _ & Hn).
  rewrite Hnb in Hnb'. injection Hnb' as <-.
  rewrite Hsub in Hsub'. injection Hsub' as <-.
  assert (Z.to_nat k ∈ ig.induced_vids (original_graph s) ns) as Hin
    by (apply Hmem; by left).
  apply list_elem_of_lookup_1 in Hin as [j Hj].
  split; [|by exists j].
  split; [done|]. split; [|split].
  - rewrite Hcount. apply lookup_lt_Some in Hj. lia.
  - destruct (Hn names Hnames) as (names' & -> & _). by eexists.
  - apply layout_fr_length.
Qed.

(** Startup leaves a session the figure builder accepts. *)
Lemma startup_renderable w s :
  startup Erdos_Renyi layout_fr w = Ok s →
  renderable (original_graph s) (layout s).
Proof.
  destruct (Erdos_Renyi_spec 50 100 w) as (Hn & Hm & [Hes _]);
    [by vm_compute; lia|].
  unfold startup, create_graph, mbind, W_bind, lift, call, mret, W_ret.
  destruct (Erdos_Renyi 50 100 w) as [g w1]. cbn [fst snd] in *.
  unfold ig.set_vs_name.
  rewrite decide_True by (by rewrite length_fmap, length_seq).
  pose proof (layout_fr_length
                {| ig.vcount := ig.vcount g;
                   ig.get_edgelist := ig.get_edgelist g;
                   ig.vs_name := Some (node_name <$> seq 0 50) |} w1) as Hlay.
  destruct (layout_fr _ w1) as [lay w2]. intros [= <-].
  cbn [original_graph layout ig.vcount ig.get_edgelist ig.vs_name fst] in *.
  split; [split|split; [|split; [by eexists|done]]].
  - done.
  - cbn [ig.vs_name ig.vcount]. by rewrite Hn.
  - cbn [ig.vcount]. lia.
Qed.

(** On a renderable session both callbacks return a figure. *)
Lemma update_original_network_plot_Ok (relayoutData : RelayoutData) s :
  renderable (original_graph s) (layout s) →
  ∃ fig s', on_relayout relayoutData s = (Ok fig, s').
Proof.
  intros Hr.
  destruct (create_network_figure_Ok _ _ (world s) Hr) as (ns & cs & Hfig & _).
  unfold update_original_network_plot, run. rewrite Hfig. by eexists _, _.
Qed.

Lemma update_subgraph_plot_Ok s k :
  renderable (original_graph s) (layout s) →
  (0 ≤ k < Z.of_nat (ig.vcount (original_graph s)))%Z →
  ∃ fig s', on_click (Some (click k)) s = (Ok fig, s').
Proof.
  intros Hr Hk. pose proof Hr as (Hwf & _).
  destruct (click_subgraph s k Hwf Hk) as (ns & sub & Hnb & Hsub & Hrun & _).
  destruct (click_subgraph_renderable s k ns sub (world s) Hr Hk Hnb Hsub)
    as (Hrsub & _).
  rewrite Hrun. unfold run.
  destruct (layout_fr sub (world s)) as [lay w']. cbn [fst] in Hrsub.
  destruct (create_network_figure_Ok sub lay w' Hrsub) as (? & ? & -> & _).
  by eexists _, _.
Qed.

(** The two traces of a built figure, and whose entry is whose. *)
Lemma figure_arrays g (positions : ig.Layout float) w :
  renderable g positions →
  let memb := (community_multilevel g w).1 in
  ∃ fig w' edges nodes names (cols : list string),
    build g positions w = (Ok fig, w')
    ∧ go.data fig = [edges; nodes]
    ∧ go.mode edges = "lines" ∧ go.mode nodes = "markers+text"
    ∧ ig.vs_name g = Some names
    ∧ length (go.x nodes) = ig.vcount g
    ∧ length (go.y nodes) = ig.vcount g
    ∧ length (go.text nodes) = ig.vcount g
    ∧ length (marker_colors fig) = ig.vcount g
    ∧ length (go.customdata nodes) = ig.vcount g
    ∧ ∀ i, i < ig.vcount g →
        (∃ x y, positions !! i = Some (x, y)
                ∧ go.x nodes !! i = Some (Some x)
                ∧ go.y nodes !! i = Some (Some y))
        ∧ go.text nodes !! i = names !! i
        ∧ (∀ c, memb !! i = Some c → marker_colors fig !! i = cols !! c)
        ∧ go.customdata nodes !! i = Some (incident_count g i).
Proof.
  intros Hr memb.
  destruct (create_network_figure_Ok g positions w Hr)
    as (names & colors & Hfig & Hnames & Hnl & Hcl & Hcol).
  fold memb in Hfig, Hcol.
  set (drawn := draw_colors randint (length (ig.clusters memb))
                  (community_multilevel g w).2) in *.
  pose proof Hr as (_ & _ & _ & Hlay).
  eexists _, _, _, _, names, drawn.1.
  split; [exact Hfig|]. split; [reflexivity|].
  cbn [go.x go.y go.mode go.text go.customdata node_trace edge_trace].
  split; [done|]. split; [done|]. split; [done|].
  rewrite !length_fmap, Hlay.
  split; [done|]. split; [done|]. split; [done|]. split; [done|].
  split; [apply degree_length|].
  intros i Hi. split; [|split; [done|split]].
  - destruct (renderable_lookup g positions i Hr Hi) as (x & y & Hxy).
    exists x, y. split; [done|].
    by rewrite !list_lookup_fmap, Hxy.
  - intros c Hc. destruct (Hcol i c Hc) as (col & -> & Hci). exact Hci.
  - by apply degree_lookup.
Qed.

(** C10.  Every figure the builder returns lists the edge trace first and
    the node trace second, and entry [i] of each array of the node trace
    (position, label, colour, degree) belongs to vertex [i] of the graph
    it was built from.  For the figure of the full graph the index of a
    marker is therefore the index of its vertex in the session graph,
    against which the click callback reads it: a click on marker [i]
    renders the subgraph around session vertex [i], and the vertex of it
    that stands for [i] carries the label of the clicked marker. *)
Theorem C10_marker_index_is_vertex_index (relayoutData : RelayoutData) s :
  (∀ g (positions : ig.Layout float) w,
     renderable g positions →
     ∃ fig w' edges nodes names (cols : list string),
       build g positions w = (Ok fig, w')
       ∧ go.data fig = [edges; nodes]
       ∧ go.mode edges = "lines" ∧ go.mode nodes = "markers+text"
       ∧ ig.vs_name g = Some names
       ∧ length (go.x nodes) = ig.vcount g
       ∧ length (go.y nodes) = ig.vcount g
       ∧ length (go.text nodes) = ig.vcount g
       ∧ length (marker_colors fig) = ig.vcount g
       ∧ length (go.customdata nodes) = ig.vcount g
       ∧ ∀ i, i < ig.vcount g →
           (∃ x y, positions !! i = Some (x, y)
                   ∧ go.x nodes !! i = Some (Some x)
                   ∧ go.y nodes !! i = Some (Some y))
           ∧ go.text nodes !! i = names !! i
           ∧ (∀ c, (community_multilevel g w).1 !! i = Some c →
                marker_colors fig !! i = cols !! c)
           ∧ go.customdata nodes !! i = Some (incident_count g i))
  ∧ (renderable (original_graph s) (layout s) →
     ∃ fig s1,
       on_relayout relayoutData s = (Ok fig, s1)
       ∧ length (marker_labels fig) = ig.vcount (original_graph s)
       ∧ ∀ i, i < ig.vcount (original_graph s) →
           ∃ ns sub fig' s2 j,
             ig.neighborhood (original_graph s) (Z.of_nat i) = Ok ns
             ∧ ig.subgraph (original_graph s) ns = Ok sub
             ∧ on_click (Some (click (Z.of_nat i))) s1 = (Ok fig', s2)
             ∧ ig.induced_vids (original_graph s) ns !! j = Some i
             ∧ marker_labels fig' !! j = marker_labels fig !! i).
Proof.
  split; [intros g positions w Hr; by apply figure_arrays|].
  intros Hr. set (g := original_graph s).
  destruct (create_network_figure_Ok g (layout s) (world s) Hr)
    as (names & colors & Hfig & Hnames & Hnl & _).
  set (w1 := (draw_colors randint _ _).2) in Hfig.
  pose proof Hr as (Hwf & _).
  set (s1 := {| original_graph := g; layout := layout s; world := w1 |}).
  eexists _, s1.
  split; [unfold update_original_network_plot, run; fold g; by rewrite Hfig|].
  split; [exact Hnl|].
  intros i Hi.
  assert (0 ≤ Z.of_nat i < Z.of_nat (ig.vcount (original_graph s1)))%Z
    as Hk by (simpl; lia).
  destruct (click_subgraph s1 (Z.of_nat i) Hwf Hk)
    as (ns & sub & Hnb & Hsub & Hrun & _ & _ & _ & _ & Hn).
  destruct (click_subgraph_renderable s1 (Z.of_nat i) ns sub w1 Hr Hk Hnb Hsub)
    as (Hrsub & j & Hj).
  rewrite Nat2Z.id in Hj.
  destruct (Hn names Hnames) as (names' & Hnames' & Hlook).
  destruct (layout_fr sub w1) as [lay w'] eqn:El. cbn [fst] in Hrsub.
  destruct (create_network_figure_Ok sub lay w' Hrsub)
    as (names2 & colors' & Hfig' & Hnames2 & _).
  rewrite Hnames' in Hnames2. injection Hnames2 as <-.
  eexists ns, sub, _, _, j.
  split; [exact Hnb|]. split; [exact Hsub|]. split; [|split; [exact Hj|]].
  - rewrite Hrun. unfold run. cbn [world s1]. rewrite El, Hfig'.
    reflexivity.
  - cbn. exact (Hlook j i Hj).
Qed.

End App_facts.

(** * The session as shared objects: what the callbacks leave alone *)

Section Mem_facts.
Context {float RelayoutData World : Type}.
Variable randint : Z → Z → World → Z * World.
Variable L : Mem.Library (float := float) (World := World).

Implicit Types (m : Mem.Machine (float := float) (World := World)).

Local Abbreviation M := (Mem.M (float := float) (World := World)).

#[local] Existing Instance Mem.M_ret.
#[local] Existing Instance Mem.M_bind.

Lemma preserved_refl m : Mem.preserved m m.
Proof. by repeat split. Qed.

Lemma preserved_trans m1 m2 m3 :
  Mem.preserved m1 m2 → Mem.preserved m2 m3 → Mem.preserved m1 m3.
Proof.
  intros (Hg1 & Hl1 & Hh1) (Hg2 & Hl2 & Hh2).
  split; [congruence|]. split; [congruence|]. auto.
Qed.

Lemma preserving_ret {A} (a : A) : Mem.preserving (mret a : M A).
Proof. intros m. apply preserved_refl. Qed.

Lemma preserving_bind {A B} (c : M A) (k : A → M B) :
  Mem.preserving c → (∀ a, Mem.preserving (k a)) → Mem.preserving (c ≫= k).
Proof.
  intros Hc Hk m. unfold mbind, Mem.M_bind. specialize (Hc m).
  destruct (c m) as [[a|e] m']; [|done].
  eapply preserved_trans; [exact Hc|apply Hk].
Qed.

Lemma preserving_lift {A} (r : Result A) : Mem.preserving (Mem.lift r : M A).
Proof. intros m. apply preserved_refl. Qed.

Lemma preserving_global name : Mem.preserving (Mem.global name : M nat).
Proof. intros m. apply preserved_refl. Qed.

Lemma preserving_points_of r : Mem.preserving (Mem.points_of r : M _).
Proof.
  intros m. unfold Mem.points_of.
  destruct (Mem.heap m !! r) as [[g|p]|]; apply preserved_refl.
Qed.

Lemma preserving_on_world {A} (c : World → Result A * World) :
  Mem.preserving (Mem.on_world c : M A).
Proof.
  intros m. unfold Mem.on_world. destruct (c (Mem.world m)). by repeat split.
Qed.

(** A new object takes the place of no other. *)
Lemma preserving_new o : Mem.preserving (Mem.new o : M nat).
Proof.
  intros m. split; [done|]. split; [done|]. intros r o' Hr. simpl.
  rewrite lookup_insert_ne; [done|]. intros <-.
  apply (is_fresh (dom (Mem.heap m))), elem_of_dom. by eexists.
Qed.

(** A call of a method that leaves its receiver alone changes no
    object. *)
Lemma preserving_invoke {A} r (f : Mem.Method (World := World) A) :
  Mem.read_only f → Mem.preserving (Mem.invoke r f : M A).
Proof.
  intros Hf m. unfold Mem.invoke.
  destruct (Mem.heap m !! r) as [[g|p]|] eqn:Hr; try apply preserved_refl.
  specialize (Hf g (Mem.world m)).
  destruct (f g (Mem.world m)) as [[res g'] w']. simpl in Hf. subst g'.
  split; [done|]. split; [done|]. intros r' o Hr'. simpl.
  destruct (decide (r = r')) as [<-|Hne].
  - rewrite lookup_insert_eq. congruence.
  - by rewrite lookup_insert_ne.
Qed.

Hypothesis library_read_only : Mem.queries_read_only L.

Lemma preserving_create_network_figure g layout :
  Mem.preserving (Mem.create_network_figure randint L g layout).
Proof.
  destruct library_read_only as (_ & Hcm & Hdeg & Hnames & Hlen & Hedges & _).
  unfold Mem.create_network_figure.
  apply preserving_bind; [apply preserving_points_of|intros positions].
  apply preserving_bind; [apply preserving_lift|intros [Xn Yn]].
  apply preserving_bind; [by apply preserving_invoke|intros communities].
  apply preserving_bind; [apply preserving_on_world|intros community_colors].
  apply preserving_bind; [by apply preserving_invoke|intros node_degrees].
  apply preserving_bind; [by apply preserving_invoke|intros names].
  apply preserving_bind; [by apply preserving_invoke|intros n].
  apply preserving_bind; [apply preserving_lift|intros colors].
  apply preserving_bind; [by apply preserving_invoke|intros edges].
  apply preserving_bind; [apply preserving_points_of|intros positions'].
  apply preserving_bind; [apply preserving_lift|intros [edge_x edge_y]].
  apply preserving_ret.
Qed.

Lemma preserving_update_original_network_plot (relayoutData : RelayoutData) :
  Mem.preserving (Mem.update_original_network_plot randint L relayoutData).
Proof.
  unfold Mem.update_original_network_plot.
  apply preserving_bind; [apply preserving_global|intros g].
  apply preserving_bind; [apply preserving_global|intros positions].
  apply preserving_create_network_figure.
Qed.

Lemma preserving_update_subgraph_plot clickData :
  Mem.preserving (Mem.update_subgraph_plot randint L clickData).
Proof.
  destruct library_read_only as (Hlay & _ & _ & _ & _ & _ & Hnb & Hsub).
  unfold Mem.update_subgraph_plot.
  destruct clickData as [cd|]; [|apply preserving_ret].
  apply preserving_bind; [apply preserving_lift|intros point].
  apply preserving_bind; [apply preserving_global|intros g].
  apply preserving_bind; [by apply preserving_invoke|intros neighbors].
  apply preserving_bind; [apply preserving_global|intros g'].
  apply preserving_bind; [by apply preserving_invoke|intros sub].
  apply preserving_bind; [apply preserving_new|intros subgraph].
  apply preserving_bind; [by apply preserving_invoke|intros positions].
  apply preserving_bind; [apply preserving_new|intros subgraph_layout].
  apply preserving_create_network_figure.
Qed.

Lemma preserved_serve (events : list (Event (RelayoutData := RelayoutData))) m :
  Mem.preserved m (Mem.serve randint L events m).
Proof.
  unfold Mem.serve. revert m.
  induction events as [|ev events IH]; intros m; [apply preserved_refl|].
  simpl. eapply preserved_trans; [|apply IH].
  destruct ev as [relayoutData|clickData]; simpl.
  - apply preserving_update_original_network_plot.
  - apply preserving_update_subgraph_plot.
Qed.

(** After startup the two module-level variables are bound to a graph
    object and to a layout object. *)
Lemma startup_objects w m0 :
  Mem.startup L w = Ok m0 →
  ∃ g positions,
    Mem.heap m0 !! Mem.original_graph m0 = Some (Mem.GraphObj g)
    ∧ Mem.heap m0 !! Mem.layout m0 = Some (Mem.LayoutObj positions).
Proof.
  unfold Mem.startup, Mem.create_graph, mbind, Mem.M_bind, mret, Mem.M_ret,
    Mem.on_world, Mem.new, Mem.invoke.
  cbn [Mem.world Mem.heap Mem.original_graph Mem.layout].
  destruct (Mem.Erdos_Renyi L 50 100 w) as [g0 w1].
  cbn [Mem.world Mem.heap Mem.original_graph Mem.layout].
  set (r := fresh (dom (∅ : gmap nat Mem.Obj))).
  rewrite lookup_insert_eq.
  destruct (Mem.set_vs_name L _ g0 w1) as [[[[]|e] g1] w2]; [|done].
  cbn [Mem.world Mem.heap Mem.original_graph Mem.layout].
  rewrite lookup_insert_eq.
  destruct (Mem.layout_fr L g1 w2) as [[[positions|e] g2] w3]; [|done].
  cbn [Mem.world Mem.heap Mem.original_graph Mem.layout].
  intros [= <-]. cbn [Mem.world Mem.heap Mem.original_graph Mem.layout].
  exists g2, positions. split; [|by rewrite lookup_insert_eq].
  match goal with
  | |- context [fresh ?X] => pose proof (is_fresh X) as Hfresh
  end.
  rewrite lookup_insert_ne, lookup_insert_eq; [done|].
  intros Heq. apply Hfresh. rewrite Heq.
  apply elem_of_dom. rewrite lookup_insert_eq. by eexists.
Qed.

(** C8.  Handling a click never changes the session.  The callbacks are
    run on the objects themselves: [original_graph] and [layout] are
    references into a store of objects, and a library method returns the
    state it leaves its receiver in.  Provided the graph methods that
    only query (neighborhood, subgraph, layout, community detection,
    degree, names, edge list) leave their receiver alone, a call of the
    click callback, whatever the click data, leaves both module-level
    variables bound to the same objects and leaves every object of the
    store as it was; so does any sequence of calls of the two callbacks;
    and from startup on, the session graph (its vertices, edges and
    names) and the stored layout are the objects startup created. *)
Theorem C8_session_objects_unchanged :
  (∀ clickData m,
     Mem.preserved m (Mem.update_subgraph_plot randint L clickData m).2)
  ∧ (∀ (events : list (Event (RelayoutData := RelayoutData))) m,
       Mem.preserved m (Mem.serve randint L events m))
  ∧ (∀ w m0,
       Mem.startup L w = Ok m0 →
       ∃ g positions,
         Mem.heap m0 !! Mem.original_graph m0 = Some (Mem.GraphObj g)
         ∧ Mem.heap m0 !! Mem.layout m0 = Some (Mem.LayoutObj positions)
         ∧ ∀ (events : list (Event (RelayoutData := RelayoutData))),
             let m := Mem.serve randint L events m0 in
             Mem.original_graph m = Mem.original_graph m0
             ∧ Mem.layout m = Mem.layout m0
             ∧ Mem.heap m !! Mem.original_graph m = Some (Mem.GraphObj g)
             ∧ Mem.heap m !! Mem.layout m = Some (Mem.LayoutObj positions)).
Proof.
  split; [intros; apply preserving_update_subgraph_plot|].
  split; [intros; apply preserved_serve|].
  intros w m0 Hstart.
  destruct (startup_objects w m0 Hstart) as (g & positions & Hg & Hp).
  exists g, positions. split; [done|]. split; [done|].
  intros events m. destruct (preserved_serve events m0) as (Eg & El & Hh).
  fold m in Eg, El, Hh. rewrite Eg, El. auto.
Qed.

End Mem_facts.

(** ** The two readings of the callbacks agree

    With the library whose methods compute what the functions of [ig] do,
    a callback run on the objects returns what the callback on values
    returns on the graph and the layout the objects hold, and leaves the
    world as that one does. *)

Section Mem_refines.
Context {float RelayoutData World : Type}.
Variable randint : Z → Z → World → Z * World.
Variable Erdos_Renyi : nat → nat → World → ig.Graph * World.
Variable layout_fr : ig.Graph → World → ig.Layout float * World.
Variable community_multilevel : ig.Graph → World → list nat * World.

Local Abbreviation L :=
  (Mem.model_library Erdos_Renyi layout_fr community_multilevel).

#[local] Existing Instance Mem.M_ret.
#[local] Existing Instance Mem.M_bind.

Lemma model_library_read_only : Mem.queries_read_only L.
Proof.
  unfold Mem.queries_read_only, Mem.read_only, Mem.query. cbn.
  repeat split; intros; try done.
  - by destruct (layout_fr g w).
  - by destruct (community_multilevel g w).
Qed.

Local Ltac object_step :=
  cbn [Mem.heap Mem.original_graph Mem.layout Mem.world Mem.model_library
       Mem.query Mem.degree Mem.vs_names Mem.vs_len Mem.get_edgelist
       Mem.neighborhood Mem.subgraph Mem.layout_fr Mem.community_multilevel].

Lemma create_network_figure_objects gr lr G (P : ig.Layout float) m :
  Mem.heap m !! gr = Some (Mem.GraphObj G) →
  Mem.heap m !! lr = Some (Mem.LayoutObj P) →
  Mem.create_network_figure randint L gr lr m =
    ((create_network_figure randint community_multilevel G P (Mem.world m)).1,
     {| Mem.heap := Mem.heap m;
        Mem.original_graph := Mem.original_graph m;
        Mem.layout := Mem.layout m;
        Mem.world :=
          (create_network_figure randint community_multilevel G P (Mem.world m)).2 |}).
Proof.
  destruct m as [h og lay w]. object_step.
  intros Hg Hl.
  unfold Mem.create_network_figure, create_network_figure.
  unfold mbind, Mem.M_bind, W_bind, mret, Mem.M_ret, W_ret, Mem.points_of,
    Mem.lift, lift, call, Mem.invoke, Mem.on_world.
  object_step. rewrite Hl.
  destruct (unzip_layout P) as [[Xn Yn]|e]; [|done].
  object_step. rewrite Hg.
  destruct (community_multilevel G w) as [memb w1].
  object_step. rewrite !(insert_id h gr _ Hg).
  destruct (color_communities randint (ig.clusters memb) ∅ w1) as [[cc|e] w2];
    [|done].
  repeat (object_step; rewrite ?(insert_id h gr _ Hg), ?Hg, ?Hl).
  destruct (ig.names G) as [names|e]; [|done].
  repeat (object_step; rewrite ?(insert_id h gr _ Hg), ?Hg, ?Hl).
  destruct (lookup_colors cc (seq 0 (ig.vcount G))) as [colors|e]; [|done].
  repeat (object_step; rewrite ?(insert_id h gr _ Hg), ?Hg, ?Hl).
  by destruct (edge_segments P (ig.get_edgelist G) [] []) as [[edge_x edge_y]|e].
Qed.

Lemma update_original_network_plot_objects relayoutData G (P : ig.Layout float) m :
  Mem.heap m !! Mem.original_graph m = Some (Mem.GraphObj G) →
  Mem.heap m !! Mem.layout m = Some (Mem.LayoutObj P) →
  let s := {| original_graph := G; layout := P; world := Mem.world m |} in
  let out := update_original_network_plot (RelayoutData := RelayoutData)
               randint community_multilevel relayoutData s in
  Mem.update_original_network_plot randint L relayoutData m =
    (out.1, {| Mem.heap := Mem.heap m;
               Mem.original_graph := Mem.original_graph m;
               Mem.layout := Mem.layout m;
               Mem.world := world out.2 |}).
Proof.
  intros Hg Hl s out.
  unfold Mem.update_original_network_plot, Mem.global, mbind, Mem.M_bind.
  rewrite (create_network_figure_objects _ _ G P m Hg Hl).
  subst out s. unfold update_original_network_plot, run. cbn [original_graph layout world].
  by destruct (create_network_figure randint community_multilevel G P (Mem.world m)).
Qed.

Lemma update_subgraph_plot_objects clickData G (P : ig.Layout float) m :
  Mem.heap m !! Mem.original_graph m = Some (Mem.GraphObj G) →
  let s := {| original_graph := G; layout := P; world := Mem.world m |} in
  let out := update_subgraph_plot randint layout_fr community_multilevel clickData s in
  (Mem.update_subgraph_plot randint L clickData m).1 = out.1
  ∧ Mem.world (Mem.update_subgraph_plot randint L clickData m).2 = world out.2.
Proof.
  destruct m as [h og lay w]. intros Hg s out.
  subst out s. object_step. cbn [Mem.heap Mem.original_graph] in Hg.
  destruct clickData as [cd|]; [|done].
  unfold Mem.update_subgraph_plot, update_subgraph_plot, run.
  unfold mbind, Mem.M_bind, W_bind, Mem.lift, lift, call, Mem.global, Mem.invoke,
    Mem.new.
  cbn [original_graph layout world].
  destruct (of_option IndexError (points cd !! 0)) as [point|e]; [|done].
  repeat (object_step; rewrite ?(insert_id h og _ Hg), ?Hg).
  destruct (ig.neighborhood G (pointIndex point)) as [neighbors|e]; [|done].
  repeat (object_step; rewrite ?(insert_id h og _ Hg), ?Hg).
  destruct (ig.subgraph G neighbors) as [sub|e]; [|done].
  repeat (object_step; rewrite ?(insert_id h og _ Hg), ?Hg).
  set (r1 := fresh (dom h)). rewrite lookup_insert_eq.
  destruct (layout_fr sub w) as [p w1]. object_step.
  rewrite insert_insert_eq.
  set (h1 := <[r1:=Mem.GraphObj sub]> h). set (r2 := fresh (dom h1)).
  rewrite (create_network_figure_objects r1 r2 sub p).
  - object_step.
    by destruct (create_network_figure randint community_multilevel sub p w1).
  - object_step. rewrite lookup_insert_ne; [apply lookup_insert_eq|].
    intros Heq. apply (is_fresh (dom h1)). fold r2. rewrite Heq.
    apply elem_of_dom. unfold h1. rewrite lookup_insert_eq. by eexists.
  - object_step. apply lookup_insert_eq.
Qed.

Lemma startup_objects_model w s :
  startup Erdos_Renyi layout_fr w = Ok s →
  ∃ m0,
    Mem.startup L w = Ok m0
    ∧ Mem.heap m0 !! Mem.original_graph m0 = Some (Mem.GraphObj (original_graph s))
    ∧ Mem.heap m0 !! Mem.layout m0 = Some (Mem.LayoutObj (layout s))
    ∧ Mem.world m0 = world s.
Proof.
  unfold startup, create_graph, Mem.startup, Mem.create_graph.
  unfold mbind, Mem.M_bind, W_bind, mret, Mem.M_ret, W_ret, lift, call,
    Mem.on_world, Mem.new, Mem.invoke.
  cbn [Mem.heap Mem.original_graph Mem.layout Mem.world Mem.model_library
       Mem.Erdos_Renyi Mem.set_vs_name Mem.layout_fr].
  destruct (Erdos_Renyi 50 100 w) as [g0 w1].
  cbn [Mem.heap Mem.original_graph Mem.layout Mem.world].
  set (r := fresh (dom (∅ : gmap nat (Mem.Obj (float := float))))).
  rewrite lookup_insert_eq.
  destruct (ig.set_vs_name g0 (node_name <$> seq 0 50)) as [g1|e]; [|done].
  cbn [Mem.heap Mem.original_graph Mem.layout Mem.world].
  rewrite lookup_insert_eq.
  destruct (layout_fr g1 w1) as [p w2].
  cbn [Mem.heap Mem.original_graph Mem.layout Mem.world].
  intros [= <-]. eexists. split; [reflexivity|].
  cbn [Mem.heap Mem.original_graph Mem.layout Mem.world original_graph layout world].
  split; [|split; [apply lookup_insert_eq|done]].
  match goal with
  | |- context [fresh ?X] => pose proof (is_fresh X) as Hfresh
  end.
  rewrite lookup_insert_ne, lookup_insert_eq; [done|].
  intros Heq. apply Hfresh. rewrite Heq.
  apply elem_of_dom. rewrite lookup_insert_eq. by eexists.
Qed.

End Mem_refines.

(** * The deterministic world keeps the libraries' promises *)

Lemma Sim_randint_range a b w :
  (a ≤ b)%Z → (a ≤ (Sim.randint a b w).1 ≤ b)%Z.
Proof.
  intros Hab. simpl.
  pose proof (Z.mod_pos_bound (Sim.draws w (Sim.pos w)) (b - a + 1)). lia.
Qed.

Lemma Sim_pairs_S n :
  Sim.pairs (S n) = Sim.pairs n ++ ((λ i, (i, n)) <$> seq 0 n).
Proof.
  unfold Sim.pairs. rewrite seq_S, bind_app. simpl. rewrite app_nil_r.
  f_equal.
Qed.

Lemma Sim_pairs_length n : 2 * length (Sim.pairs n) = n * (n - 1).
Proof.
  induction n as [|n IH]; [done|].
  rewrite Sim_pairs_S, length_app, length_fmap, length_seq.
  destruct n; simpl in *; lia.
Qed.

Lemma Sim_pairs_lt n : Forall (λ e, e.1 < n ∧ e.2 < n) (Sim.pairs n).
Proof.
  induction n as [|n IH]; [constructor|].
  rewrite Sim_pairs_S. apply Forall_app. split.
  - eapply Forall_impl; [exact IH|]. simpl. intros e []. lia.
  - apply Forall_fmap, Forall_forall. intros i Hi%elem_of_seq. simpl. lia.
Qed.

Lemma Sim_Erdos_Renyi_spec n m w :
  m ≤ n * (n - 1) / 2 →
  ig.vcount (Sim.Erdos_Renyi n m w).1 = n
  ∧ length (ig.get_edgelist (Sim.Erdos_Renyi n m w).1) = m
  ∧ ig.wf (Sim.Erdos_Renyi n m w).1.
Proof.
  intros Hm. simpl. split; [done|]. split.
  - rewrite length_take. pose proof (Sim_pairs_length n) as H.
    rewrite <- H, Nat.mul_comm, Nat.div_mul in Hm by done. lia.
  - split; simpl; [|done]. apply Forall_take, Sim_pairs_lt.
Qed.

Lemma Sim_layout_fr_length g w : length (Sim.layout_fr g w).1 = ig.vcount g.
Proof. simpl. by rewrite length_fmap, length_seq. Qed.

Lemma Sim_one_community_length g w :
  length (Sim.community_multilevel Sim.one_community g w).1 = ig.vcount g.
Proof. simpl. apply length_replicate. Qed.

(** Draws that are all [v] give communities that are all of one colour. *)
Lemma Sim_draw_colors_const k d p v :
  (0 ≤ v ≤ 255)%Z →
  (∀ i, p ≤ i < p + 3 * k → d i = v) →
  draw_colors Sim.randint k {| Sim.draws := d; Sim.pos := p |}
  = (replicate k (format_color v v v),
     {| Sim.draws := d; Sim.pos := p + 3 * k |}).
Proof.
  intros Hv. revert p. induction k as [|k IH]; intros p Hd.
  - simpl. do 2 f_equal. lia.
  - cbn [draw_colors Sim.randint Sim.draws Sim.pos].
    rewrite IH by (intros i Hi; apply Hd; lia).
    rewrite !Hd by lia.
    change (255 - 0 + 1)%Z with 256%Z. rewrite Z.mod_small by lia.
    simpl. do 3 f_equal. lia.
Qed.

(** C9.  The colours of the full graph are not stable from one render to
    the next.  Whatever the session graph and whatever communities are
    detected in it, there is a state of the random source from which two
    successive renders of the unchanged session give vertex 0 two
    different colours. *)
Theorem C9_colors_differ_across_renders {float RelayoutData : Type}
    (detect : ig.Graph → list nat) (relayoutData : RelayoutData)
    (g : ig.Graph) (positions : ig.Layout float) :
  (∀ g, length (detect g) = ig.vcount g) →
  renderable g positions →
  ∃ w fig1 s1 fig2 s2 c1 c2,
    update_original_network_plot Sim.randint (Sim.community_multilevel detect)
      relayoutData {| original_graph := g; layout := positions; world := w |}
    = (Ok fig1, s1)
    ∧ update_original_network_plot Sim.randint (Sim.community_multilevel detect)
        relayoutData s1
      = (Ok fig2, s2)
    ∧ original_graph s1 = g ∧ layout s1 = positions
    ∧ marker_colors fig1 !! 0 = Some c1
    ∧ marker_colors fig2 !! 0 = Some c2
    ∧ c1 ≠ c2.
Proof.
  intros Hdet Hr.
  set (K := length (ig.clusters (detect g))).
  set (d := λ i, if decide (i < 3 * K) then 0%Z else 1%Z).
  assert (∀ g' w, length (Sim.community_multilevel detect g' w).1 = ig.vcount g')
    as Hlen by (intros; apply Hdet).
  assert (∃ c, detect g !! 0 = Some c) as [c Hc].
  { apply lookup_lt_is_Some_2. rewrite Hdet. by destruct Hr as (_ & ? & _). }
  assert (c < K) as HcK.
  { destruct (clusters_member _ _ _ Hc) as (nodes & Hn & _).
    by eapply lookup_lt_Some. }
  pose (w0 := Sim.step_source (3 * K)).
  pose (w1 := {| Sim.draws := d; Sim.pos := 0 + 3 * K |}).
  pose (w2 := {| Sim.draws := d; Sim.pos := 0 + 3 * K + 3 * K |}).
  destruct (create_network_figure_Ok Sim.randint _ Hlen g positions w0 Hr)
    as (ns1 & colors1 & Hfig1 & _ & _ & _ & Hcol1).
  destruct (create_network_figure_Ok Sim.randint _ Hlen g positions w1 Hr)
    as (ns2 & colors2 & Hfig2 & _ & _ & _ & Hcol2).
  cbn [Sim.community_multilevel fst snd] in Hfig1, Hcol1, Hfig2, Hcol2.
  fold K in Hfig1, Hcol1, Hfig2, Hcol2.
  unfold w0, w1, Sim.step_source in Hfig1, Hcol1, Hfig2, Hcol2. fold d in Hfig1, Hcol1.
  assert (draw_colors Sim.randint K {| Sim.draws := d; Sim.pos := 0 |}
          = (replicate K (format_color 0 0 0), w1)) as E1.
  { apply Sim_draw_colors_const; [lia|].
    intros i Hi. unfold d. rewrite decide_True; [done|lia]. }
  assert (draw_colors Sim.randint K {| Sim.draws := d; Sim.pos := 0 + 3 * K |}
          = (replicate K (format_color 1 1 1), w2)) as E2.
  { apply Sim_draw_colors_const; [lia|].
    intros i Hi. unfold d. rewrite decide_False; [done|lia]. }
  rewrite E1 in Hfig1, Hcol1. rewrite E2 in Hfig2, Hcol2.
  cbn [fst snd] in Hfig1, Hcol1, Hfig2, Hcol2.
  destruct (Hcol1 0 c Hc) as (c1 & Hc1 & Hm1).
  destruct (Hcol2 0 c Hc) as (c2 & Hc2 & Hm2).
  apply lookup_replicate in Hc1 as [-> _].
  apply lookup_replicate in Hc2 as [-> _].
  exists w0. eexists _, _, _, _, _, _.
  split.
  { unfold update_original_network_plot, run, w0, Sim.step_source.
    cbn [original_graph layout world]. fold d. rewrite Hfig1.
    reflexivity. }
  split.
  { unfold update_original_network_plot, run, w1.
    cbn [original_graph layout world]. rewrite Hfig2. reflexivity. }
  split; [reflexivity|]. split; [reflexivity|].
  split; [exact Hm1|]. split; [exact Hm2|]. discriminate.
Qed.

(** * The example scenario

    The graph with vertices 0..3 and edges 0-1 and 1-2, in the
    deterministic world with one community and the draws 0, 1, 2, ... *)

Example scenario_neighborhood : ig.neighborhood Sim.path_graph 1 = Ok [1; 0; 2].
Proof. vm_compute. reflexivity. Qed.

Example scenario_subgraph :
  ig.subgraph Sim.path_graph [1; 0; 2]
  = Ok {| ig.vcount := 3;
          ig.get_edgelist := [(0, 1); (1, 2)];
          ig.vs_name := Some ["Node-0"; "Node-1"; "Node-2"] |}.
Proof. vm_compute. reflexivity. Qed.

(** Clicking vertex 1: vertex 3 is not in the figure. *)
Example scenario_click :
  match (update_subgraph_plot Sim.randint Sim.layout_fr
           (Sim.community_multilevel Sim.one_community)
           (Some (click 1)) (Sim.path_state Sim.counting)).1 with
  | Ok fig =>
      marker_labels fig = ["Node-0"; "Node-1"; "Node-2"]
      ∧ marker_degrees fig = [1; 2; 1]
      ∧ marker_colors fig = ["#000102"; "#000102"; "#000102"]
  | Err _ => False
  end.
Proof. vm_compute. done. Qed.

(** Clicking the isolated vertex 3: a figure with one marker and no edge. *)
Example scenario_click_isolated :
  match (update_subgraph_plot Sim.randint Sim.layout_fr
           (Sim.community_multilevel Sim.one_community)
           (Some (click 3)) (Sim.path_state Sim.counting)).1 with
  | Ok fig =>
      marker_labels fig = ["Node-3"] ∧ marker_degrees fig = [0]
      ∧ (go.x <$> go.data fig !! 0) = Some []
  | Err _ => False
  end.
Proof. vm_compute. done. Qed.

Example scenario_click_negative :
  (update_subgraph_plot Sim.randint Sim.layout_fr
     (Sim.community_multilevel Sim.one_community)
     (Some (click (-1))) (Sim.path_state Sim.counting)).1
  = Err TypeError.
Proof. vm_compute. reflexivity. Qed.

(** Click data without points. *)
Example scenario_click_no_point :
  (update_subgraph_plot Sim.randint Sim.layout_fr
     (Sim.community_multilevel Sim.one_community)
     (Some {| points := [] |}) (Sim.path_state Sim.counting)).1
  = Err IndexError.
Proof. vm_compute. reflexivity. Qed.

(** Two renders of the full graph in the counting world. *)
Example scenario_two_renders :
  let s := Sim.path_state Sim.counting in
  let r1 := update_original_network_plot Sim.randint
              (Sim.community_multilevel Sim.one_community) tt s in
  let r2 := update_original_network_plot Sim.randint
              (Sim.community_multilevel Sim.one_community) tt r1.2 in
  (marker_colors <$> match r1.1 with Ok f => Some f | Err _ => None end)
  = Some ["#000102"; "#000102"; "#000102"; "#000102"]
  ∧ (marker_colors <$> match r2.1 with Ok f => Some f | Err _ => None end)
    = Some ["#030405"; "#030405"; "#030405"; "#030405"].
Proof. vm_compute. done. Qed.

Example format_color_ex : format_color 0 171 255 = "#00abff".
Proof. reflexivity. Qed.

(** A loop counts twice in the degree. *)
Example degree_loop :
  ig.degree {| ig.vcount := 2; ig.get_edgelist := [(0, 0); (0, 1)];
               ig.vs_name := None |} = [3; 1].
Proof. reflexivity. Qed.

(** A graph without vertices cannot be rendered: the unpacking fails. *)
Example render_empty_graph :
  (create_network_figure Sim.randint
     (Sim.community_multilevel Sim.one_community)
     {| ig.vcount := 0; ig.get_edgelist := []; ig.vs_name := None |}
     ([] : list (Z * Z)) Sim.counting).1
  = Err ValueError.
Proof. reflexivity. Qed.

(** * The claims on the example scenario *)

Lemma C1_witness :
  ig.wf Sim.path_graph ∧ (0 ≤ 1 < 4)%Z
  ∧ ∃ nodes sub,
      NoDup nodes
      ∧ (∀ v, v ∈ nodes ↔ v = 1 ∨ ig.adjacent Sim.path_graph 1 v)
      ∧ ig.vcount sub = length nodes
      ∧ original_edge nodes <$> ig.get_edgelist sub
        ≡ₚ filter (λ e, e.1 ∈ nodes ∧ e.2 ∈ nodes) [(0, 1); (1, 2)].
Proof.
  assert (ig.wf Sim.path_graph) as Hwf by by_computation.
  assert (0 ≤ 1 < 4)%Z as Hk by lia.
  split; [exact Hwf|]. split; [exact Hk|].
  destruct (C1_click_renders_induced_neighborhood
              Sim.randint Sim.layout_fr
              (Sim.community_multilevel Sim.one_community)
              (Sim.path_state Sim.counting) 1 Hwf Hk)
    as (nodes & sub & _ & Hnd & Hmem & _ & Hcount & _ & Hedges).
  exists nodes, sub. split; [exact Hnd|]. split; [exact Hmem|].
  split; [exact Hcount|exact Hedges].
Defined.

Lemma C2_witness :
  ∃ s names,
    startup Sim.Erdos_Renyi Sim.layout_fr Sim.counting = Ok s
    ∧ ig.vcount (original_graph s) = 50
    ∧ length (ig.get_edgelist (original_graph s)) = 100
    ∧ ig.vs_name (original_graph s) = Some names
    ∧ length names = 50
    ∧ (∀ i, i < 50 → names !! i = Some ("Node-" +:+ pretty i))
    ∧ NoDup names.
Proof.
  exact (C2_startup_graph Sim.Erdos_Renyi Sim.layout_fr
           Sim_Erdos_Renyi_spec Sim.counting).
Defined.

Lemma C4_witness :
  renderable Sim.path_graph (Sim.layout_fr Sim.path_graph Sim.counting).1
  ∧ ∃ fig,
      create_network_figure Sim.randint
        (Sim.community_multilevel Sim.one_community) Sim.path_graph
        (Sim.layout_fr Sim.path_graph Sim.counting).1 Sim.counting
      = (Ok fig, {| Sim.draws := Z.of_nat; Sim.pos := 3 |})
      ∧ length (marker_colors fig) = 4
      ∧ ∀ i, i < 4 → marker_colors fig !! i = Some "#000102".
Proof.
  assert (renderable Sim.path_graph
            (Sim.layout_fr Sim.path_graph Sim.counting).1) as Hr
    by path_renderable.
  split; [exact Hr|].
  destruct (C4_one_color_per_community Sim.randint
              (Sim.community_multilevel Sim.one_community)
              Sim_randint_range Sim_one_community_length
              Sim.path_graph _ Sim.counting Hr)
    as (fig & Hfig & Hlen & Hcol & _).
  exists fig. split; [exact Hfig|]. split; [exact Hlen|].
  intros i Hi. apply (Hcol i 0). apply lookup_replicate_2. exact Hi.
Defined.

Lemma C5_witness :
  renderable Sim.path_graph (Sim.layout_fr Sim.path_graph Sim.counting).1
  ∧ ∃ fig w',
      create_network_figure Sim.randint
        (Sim.community_multilevel Sim.one_community) Sim.path_graph
        (Sim.layout_fr Sim.path_graph Sim.counting).1 Sim.counting
      = (Ok fig, w')
      ∧ length (marker_degrees fig) = 4
      ∧ ∀ v, v < 4 → marker_degrees fig !! v
                      = Some (incident_count Sim.path_graph v).
Proof.
  split; [path_renderable|].
  apply (C5_hover_degree Sim.randint
           (Sim.community_multilevel Sim.one_community)
           Sim_one_community_length Sim.path_graph _ Sim.counting).
  path_renderable.
Defined.

Lemma C6_witness :
  renderable Sim.path_graph (Sim.layout_fr Sim.path_graph Sim.counting).1
  ∧ ∃ fig w' trace,
      create_network_figure Sim.randint
        (Sim.community_multilevel Sim.one_community) Sim.path_graph
        (Sim.layout_fr Sim.path_graph Sim.counting).1 Sim.counting
      = (Ok fig, w')
      ∧ go.data fig !! 0 = Some trace
      ∧ length (go.x trace) = 6
      ∧ length (go.y trace) = 6.
Proof.
  assert (renderable Sim.path_graph
            (Sim.layout_fr Sim.path_graph Sim.counting).1) as Hr
    by path_renderable.
  split; [exact Hr|].
  destruct (C6_edge_segments Sim.randint
              (Sim.community_multilevel Sim.one_community)
              Sim_one_community_length Sim.path_graph _ Sim.counting Hr)
    as (fig & w' & trace & Hfig & Htrace & _ & Hx & Hy & _).
  exists fig, w', trace.
  split; [exact Hfig|]. split; [exact Htrace|]. split; [exact Hx|exact Hy].
Defined.

Lemma C7_witness :
  ¬ (0 ≤ 4 < 4)%Z ∧ ¬ (0 ≤ -1 < 4)%Z ∧ ¬ (0 ≤ 2 ^ 63 < 4)%Z
  ∧ update_subgraph_plot Sim.randint Sim.layout_fr
      (Sim.community_multilevel Sim.one_community)
      (Some (click 4)) (Sim.path_state Sim.counting)
    = (Err InternalError, Sim.path_state Sim.counting)
  ∧ update_subgraph_plot Sim.randint Sim.layout_fr
      (Sim.community_multilevel Sim.one_community)
      (Some (click (-1))) (Sim.path_state Sim.counting)
    = (Err TypeError, Sim.path_state Sim.counting)
  ∧ update_subgraph_plot Sim.randint Sim.layout_fr
      (Sim.community_multilevel Sim.one_community)
      (Some (click (2 ^ 63))) (Sim.path_state Sim.counting)
    = (Err TypeError, Sim.path_state Sim.counting).
Proof.
  assert (¬ (0 ≤ 4 < 4)%Z) as Hk by lia.
  assert (¬ (0 ≤ -1 < 4)%Z) as Hk' by lia.
  assert (¬ (0 ≤ 2 ^ 63 < 4)%Z) as Hk'' by lia.
  split; [exact Hk|]. split; [exact Hk'|]. split; [exact Hk''|].
  split; [|split].
  - exact (C7_click_out_of_range Sim.randint Sim.layout_fr
             (Sim.community_multilevel Sim.one_community)
             (Sim.path_state Sim.counting) 4 Hk).
  - exact (C7_click_out_of_range Sim.randint Sim.layout_fr
             (Sim.community_multilevel Sim.one_community)
             (Sim.path_state Sim.counting) (-1) Hk').
  - exact (C7_click_out_of_range Sim.randint Sim.layout_fr
             (Sim.community_multilevel Sim.one_community)
             (Sim.path_state Sim.counting) (2 ^ 63) Hk'').
Defined.

(** C7, as first stated, fails: the indices outside the session graph do
    not all fail with one and the same error kind.  On the example graph
    a click on -1 raises TypeError and a click on 4 raises
    InternalError. *)
Lemma C7_counterexample :
  ¬ ∃ e, ∀ k, ¬ (0 ≤ k < 4)%Z →
      (update_subgraph_plot Sim.randint Sim.layout_fr
         (Sim.community_multilevel Sim.one_community)
         (Some (click k)) (Sim.path_state Sim.counting)).1
      = Err e.
Proof.
  intros [e He].
  assert (¬ (0 ≤ -1 < 4)%Z) as H1 by lia.
  assert (¬ (0 ≤ 4 < 4)%Z) as H2 by lia.
  pose proof (He (-1)%Z H1) as E1. pose proof (He 4%Z H2) as E2.
  vm_compute in E1, E2. congruence.
Qed.

(** The receiver of a name assignment does change: the frame property of
    the callbacks rests on their calling none but the querying methods. *)
Example assigning_names_changes_the_graph :
  let L := Mem.model_library Sim.Erdos_Renyi Sim.layout_fr
             (Sim.community_multilevel Sim.one_community) in
  let m := Mem.path_machine Sim.counting in
  (Mem.invoke (Mem.original_graph m)
     (Mem.set_vs_name L ["a"; "b"; "c"; "d"]) m).1 = Ok ()
  ∧ ¬ Mem.preserved m
        (Mem.invoke (Mem.original_graph m)
           (Mem.set_vs_name L ["a"; "b"; "c"; "d"]) m).2.
Proof.
  intros L m. split; [reflexivity|].
  intros (_ & _ & H).
  specialize (H 0 (Mem.GraphObj Sim.path_graph) eq_refl).
  vm_compute in H. discriminate H.
Qed.

Lemma C8_witness :
  let L := Mem.model_library Sim.Erdos_Renyi Sim.layout_fr
             (Sim.community_multilevel Sim.one_community) in
  let m := Mem.path_machine Sim.counting in
  Mem.queries_read_only L
  ∧ (∀ k, Mem.preserved m
            (Mem.update_subgraph_plot Sim.randint L (Some (click k)) m).2)
  ∧ ∃ m0 g positions,
      Mem.startup L Sim.counting = Ok m0
      ∧ Mem.heap m0 !! Mem.original_graph m0 = Some (Mem.GraphObj g)
      ∧ Mem.heap m0 !! Mem.layout m0 = Some (Mem.LayoutObj positions)
      ∧ ∀ events : list (Event (RelayoutData := ())),
          let m' := Mem.serve Sim.randint L events m0 in
          Mem.original_graph m' = Mem.original_graph m0
          ∧ Mem.layout m' = Mem.layout m0
          ∧ Mem.heap m' !! Mem.original_graph m' = Some (Mem.GraphObj g)
          ∧ Mem.heap m' !! Mem.layout m' = Some (Mem.LayoutObj positions).
Proof.
  intros L m.
  pose proof (model_library_read_only Sim.Erdos_Renyi Sim.layout_fr
                (Sim.community_multilevel Sim.one_community)) as HL.
  destruct (C8_session_objects_unchanged (RelayoutData := ()) Sim.randint L HL)
    as (Hclick & _ & Hstart).
  split; [exact HL|]. split; [intros k; apply Hclick|].
  destruct (startup Sim.Erdos_Renyi Sim.layout_fr Sim.counting) as [s|e] eqn:E;
    [|vm_compute in E; discriminate E].
  destruct (startup_objects_model Sim.Erdos_Renyi Sim.layout_fr
              (Sim.community_multilevel Sim.one_community) Sim.counting s E)
    as (m0 & Hm0 & _).
  destruct (Hstart Sim.counting m0 Hm0) as (g & positions & Hg & Hp & Hev).
  exists m0, g, positions. auto.
Defined.

Lemma C9_witness :
  (∀ g, length (Sim.one_community g) = ig.vcount g)
  ∧ renderable Sim.path_graph (Sim.layout_fr Sim.path_graph Sim.counting).1
  ∧ ∃ w fig1 s1 fig2 s2 c1 c2,
      update_original_network_plot Sim.randint
        (Sim.community_multilevel Sim.one_community) tt
        {| original_graph := Sim.path_graph;
           layout := (Sim.layout_fr Sim.path_graph Sim.counting).1;
           world := w |}
      = (Ok fig1, s1)
      ∧ update_original_network_plot Sim.randint
          (Sim.community_multilevel Sim.one_community) tt s1
        = (Ok fig2, s2)
      ∧ original_graph s1 = Sim.path_graph
      ∧ layout s1 = (Sim.layout_fr Sim.path_graph Sim.counting).1
      ∧ marker_colors fig1 !! 0 = Some c1
      ∧ marker_colors fig2 !! 0 = Some c2
      ∧ c1 ≠ c2.
Proof.
  assert (∀ g, length (Sim.one_community g) = ig.vcount g) as Hdet
    by (intros g; apply length_replicate).
  assert (renderable Sim.path_graph
            (Sim.layout_fr Sim.path_graph Sim.counting).1) as Hr
    by path_renderable.
  split; [exact Hdet|]. split; [exact Hr|].
  exact (C9_colors_differ_across_renders Sim.one_community tt
           Sim.path_graph _ Hdet Hr).
Defined.

Lemma C10_witness :
  renderable (original_graph (Sim.path_state Sim.counting))
    (layout (Sim.path_state Sim.counting))
  ∧ ∃ fig s1,
      update_original_network_plot Sim.randint
        (Sim.community_multilevel Sim.one_community) tt
        (Sim.path_state Sim.counting)
      = (Ok fig, s1)
      ∧ length (marker_labels fig) = 4
      ∧ ∀ i, i < 4 →
          ∃ fig' s2 j,
            update_subgraph_plot Sim.randint Sim.layout_fr
              (Sim.community_multilevel Sim.one_community)
              (Some (click (Z.of_nat i))) s1
            = (Ok fig', s2)
            ∧ marker_labels fig' !! j = marker_labels fig !! i.
Proof.
  assert (renderable (original_graph (Sim.path_state Sim.counting))
            (layout (Sim.path_state Sim.counting))) as Hr
    by path_renderable.
  split; [exact Hr|].
  destruct (C10_marker_index_is_vertex_index Sim.randint Sim.layout_fr
              (Sim.community_multilevel Sim.one_community)
              Sim_layout_fr_length Sim_one_community_length
              tt (Sim.path_state Sim.counting))
    as [_ Hsession].
  destruct (Hsession Hr) as (fig & s1 & Hfig & Hlen & Hall).
  exists fig, s1. split; [exact Hfig|]. split; [exact Hlen|].
  intros i Hi.
  destruct (Hall i Hi) as (ns & sub & fig' & s2 & j & _ & _ & Hc & _ & Hlab).
  exists fig', s2, j. split; [exact Hc|exact Hlab].
Defined.

(** * Further properties of the figure builder *)

Lemma lookup_colors_Err (cc : gmap nat string) (ids : list nat) i :
  i ∈ ids → cc !! i = None → lookup_colors cc ids = Err KeyError.
Proof.
  induction ids as [|j ids IH]; intros Hin Hi; [by apply elem_of_nil in Hin|].
  simpl. destruct (cc !! j) as [c|] eqn:Hj; [|done].
  apply elem_of_cons in Hin as [->|Hin]; [congruence|].
  by rewrite IH.
Qed.

Lemma edge_segments_Err {float} (layout : ig.Layout float)
    (edges : list (nat * nat)) edge_x edge_y :
  ¬ Forall (λ e, e.1 < length layout ∧ e.2 < length layout) edges →
  edge_segments layout edges edge_x edge_y = Err IndexError.
Proof.
  revert edge_x edge_y.
  induction edges as [|[u v] edges IH]; intros edge_x edge_y Hnot.
  - destruct Hnot. constructor.
  - cbn [edge_segments fst snd].
    destruct (layout !! u) as [[x0 y0]|] eqn:Hu; [|done].
    destruct (layout !! v) as [[x1 y1]|] eqn:Hv; [|done].
    apply IH. intros Hall. apply Hnot. constructor; [|done].
    split; eapply lookup_lt_Some; eauto.
Qed.

(** The vertices the colour table covers are those with a membership
    entry. *)
Lemma paint_clusters_None (memb : list nat) (cols : list string) i :
  length memb ≤ i → paint (ig.clusters memb) cols ∅ !! i = None.
Proof.
  intros Hi. rewrite paint_other; [done|].
  intros nodes [c Hc]%list_elem_of_lookup_1 Hin.
  pose proof (clusters_disjoint _ _ _ _ Hc Hin) as H%lookup_lt_Some. lia.
Qed.

Lemma bump_sum v (d : list nat) :
  v < length d → sum_list (ig.bump v d) = S (sum_list d).
Proof.
  unfold ig.bump. revert v. induction d as [|x d IH]; intros v Hv.
  - simpl in Hv. lia.
  - simpl in Hv. destruct v as [|v]; csimpl; [done|]. rewrite IH by lia. lia.
Qed.

(** Every edge has two ends. *)
Lemma degree_sum g :
  Forall (λ e, e.1 < ig.vcount g ∧ e.2 < ig.vcount g) (ig.get_edgelist g) →
  sum_list (ig.degree g) = 2 * length (ig.get_edgelist g).
Proof.
  unfold ig.degree. intros Hes.
  assert (∀ es d,
            Forall (λ e : nat * nat, e.1 < length d ∧ e.2 < length d) es →
            sum_list (foldl (λ d e, ig.bump e.2 (ig.bump e.1 d)) d es)
            = sum_list d + 2 * length es) as H.
  { clear. induction es as [|e es IH]; intros d Hall; simpl; [lia|].
    apply Forall_cons in Hall as [[H1 H2] Hall].
    rewrite IH by (by rewrite !bump_length).
    rewrite !bump_sum by (by rewrite ?bump_length). lia. }
  rewrite H by (by rewrite length_replicate).
  assert (∀ n, sum_list (replicate n 0) = 0) as ->; [|lia].
  clear. induction n as [|n IH]; simpl; lia.
Qed.

Section figure_more.
Context {float World : Type}.
Variable randint : Z → Z → World → Z * World.
Variable community_multilevel : ig.Graph → World → list nat * World.
Hypothesis community_multilevel_length :
  ∀ g w, length (community_multilevel g w).1 = ig.vcount g.

Implicit Types (g : ig.Graph) (w : World) (positions : ig.Layout float).

Local Abbreviation build := (create_network_figure randint community_multilevel).

(** The world a build leaves behind, and its result up to the point
    where the traces are put together. *)
Lemma build_unfold g positions w :
  positions ≠ [] →
  let memb := (community_multilevel g w).1 in
  let drawn := draw_colors randint (length (ig.clusters memb))
                 (community_multilevel g w).2 in
  build g positions w
  = (match ig.names g with
     | Err e => Err e
     | Ok names =>
         match lookup_colors (paint (ig.clusters memb) drawn.1 ∅)
                 (seq 0 (ig.vcount g)) with
         | Err e => Err e
         | Ok colors =>
             match edge_segments positions (ig.get_edgelist g) [] [] with
             | Err e => Err e
             | Ok (edge_x, edge_y) =>
                 Ok {| go.data :=
                         [edge_trace edge_x edge_y;
                          node_trace positions.*1 positions.*2 names colors
                            (ig.degree g)];
                       go.layout := figure_layout |}
             end
         end
     end, drawn.2).
Proof.
  intros Hne. cbv zeta.
  unfold create_network_figure, mbind, W_bind, lift, call, unzip_layout.
  destruct positions as [|p positions]; [done|].
  destruct (community_multilevel g w) as [memb w1]. cbn [fst snd].
  rewrite color_communities_draw.
  destruct (draw_colors randint (length (ig.clusters memb)) w1) as [cols w2].
  cbn [fst snd].
  destruct (ig.names g) as [names|e]; [|done].
  destruct (lookup_colors _ _) as [colors|e]; [|done].
  destruct (edge_segments _ _ _ _) as [[edge_x edge_y]|e]; done.
Qed.

(** X1.  The outcome of a figure build in every case.  A layout without
    points makes the unpacking fail with ValueError before anything
    random happens.  Otherwise the build fails with KeyError when the
    vertices have no names or when some vertex has no membership entry;
    if not, with IndexError when an edge end has no layout point; and
    returns a figure in the remaining case. *)
Theorem X1_build_outcome g positions w :
  let memb := (community_multilevel g w).1 in
  let named := is_Some (ig.vs_name g) ∨ ig.vcount g = 0 in
  let coloured := ig.vcount g ≤ length memb in
  let placed := Forall (λ e, e.1 < length positions ∧ e.2 < length positions)
                  (ig.get_edgelist g) in
  (positions = [] → build g positions w = (Err ValueError, w))
  ∧ (positions ≠ [] → ¬ (named ∧ coloured) →
     (build g positions w).1 = Err KeyError)
  ∧ (positions ≠ [] → named → coloured → ¬ placed →
     (build g positions w).1 = Err IndexError)
  ∧ (positions ≠ [] → named → coloured → placed →
     ∃ fig, (build g positions w).1 = Ok fig).
Proof.
  cbv zeta. split; [by intros ->|].
  set (memb := (community_multilevel g w).1).
  set (drawn := draw_colors randint (length (ig.clusters memb))
                  (community_multilevel g w).2).
  assert (∀ i, i < ig.vcount g → i < length memb →
               is_Some (paint (ig.clusters memb) drawn.1 ∅ !! i)) as Hsome.
  { intros i _ Hi. destruct (lookup_lt_is_Some_2 memb i Hi) as [c Hc].
    destruct (clusters_member _ _ _ Hc) as (nodes & Hn & Hin).
    destruct (lookup_lt_is_Some_2 drawn.1 c) as [col Hcol].
    { unfold drawn. rewrite draw_colors_length. by eapply lookup_lt_Some. }
    exists col.
    eapply paint_lookup; eauto using clusters_disjoint_communities. }
  assert ((is_Some (ig.vs_name g) ∨ ig.vcount g = 0) →
            ∃ names, ig.names g = Ok names) as Hnames.
  { intros [[ns Hns]|H0]; unfold ig.names.
    - rewrite Hns. by eexists.
    - destruct (ig.vs_name g); [by eexists|]. rewrite decide_True by done.
      by eexists. }
  split; [|split].
  - intros Hne Hnot. rewrite build_unfold by done. cbn [fst].
    fold memb drawn.
    destruct (ig.names g) as [names|e] eqn:En.
    + assert (¬ ig.vcount g ≤ length memb) as Hshort.
      { intros Hc. apply Hnot. split; [|done].
        unfold ig.names in En. destruct (ig.vs_name g); [left; by eexists|].
        right. by destruct (decide (ig.vcount g = 0)). }
      rewrite (lookup_colors_Err _ _ (length memb)); [done| |].
      * apply elem_of_seq. lia.
      * by apply paint_clusters_None.
    + unfold ig.names in En. destruct (ig.vs_name g); [done|].
      destruct (decide (ig.vcount g = 0)); [done|]. by injection En as <-.
  - intros Hne Hnamed Hcol Hnot. rewrite build_unfold by done. cbn [fst].
    fold memb drawn.
    destruct (Hnames Hnamed) as [names ->].
    destruct (lookup_colors_Ok (paint (ig.clusters memb) drawn.1 ∅)
                (seq 0 (ig.vcount g))) as (colors & -> & _).
    { intros i Hi%elem_of_seq. apply Hsome; lia. }
    by rewrite edge_segments_Err.
  - intros Hne Hnamed Hcol Hplaced. rewrite build_unfold by done. cbn [fst].
    fold memb drawn.
    destruct (Hnames Hnamed) as [names ->].
    destruct (lookup_colors_Ok (paint (ig.clusters memb) drawn.1 ∅)
                (seq 0 (ig.vcount g))) as (colors & -> & _).
    { intros i Hi%elem_of_seq. apply Hsome; lia. }
    rewrite edge_segments_Ok by done. by eexists.
Qed.

(** X3.  In every built figure the degrees attached to the markers add
    up to twice the number of edges, that is to two thirds of the length
    of the edge trace. *)
Theorem X3_degrees_count_edge_ends g positions w :
  renderable g positions →
  ∃ fig w' trace,
    build g positions w = (Ok fig, w')
    ∧ go.data fig !! 0 = Some trace
    ∧ sum_list (marker_degrees fig) = 2 * length (ig.get_edgelist g)
    ∧ 3 * sum_list (marker_degrees fig) = 2 * length (go.x trace)
    ∧ 3 * sum_list (marker_degrees fig) = 2 * length (go.y trace).
Proof.
  intros Hr.
  destruct (create_network_figure_Ok randint community_multilevel
              community_multilevel_length g positions w Hr)
    as (ns & colors & Hfig & _).
  destruct Hr as ([Hes _] & _).
  eexists _, _, _. split; [exact Hfig|]. split; [reflexivity|].
  cbn [marker_degrees go.data go.customdata go.x go.y node_trace edge_trace
       lookup list_lookup].
  rewrite !segments_length, degree_sum by done. lia.
Qed.

End figure_more.

(** * Further properties of the click callback *)

Lemma filter_length_fmap {A B} (f : A → B) (P : A → Prop) (Q : B → Prop)
    `{∀ x, Decision (P x)} `{∀ y, Decision (Q y)} (l : list A) :
  Forall (λ x, P x ↔ Q (f x)) l →
  length (filter P l) = length (filter Q (f <$> l)).
Proof.
  induction l as [|x l IH]; intros Hall; [done|].
  apply Forall_cons in Hall as [Hx Hall]. csimpl. rewrite !filter_cons.
  destruct (decide (P x)) as [HP|HP], (decide (Q (f x))) as [HQ|HQ];
    simpl; rewrite ?IH by done; tauto || done.
Qed.

(** Reading the name list at every vertex id gives it back. *)
Lemma omap_lookup_seq (ns pre : list string) :
  omap (λ v, (pre ++ ns) !! v) (seq (length pre) (length ns)) = ns.
Proof.
  revert pre. induction ns as [|n ns IH]; intros pre; [done|].
  csimpl. rewrite list_lookup_middle by done. csimpl. f_equal.
  specialize (IH (pre ++ [n])).
  rewrite length_app, <- app_assoc in IH. simpl in IH.
  by rewrite Nat.add_1_r in IH.
Qed.

Lemma omap_sublist {A B} (f : A → option B) (l1 l2 : list A) :
  l1 `sublist_of` l2 → omap f l1 `sublist_of` omap f l2.
Proof.
  induction 1 as [|x l1 l2 _ IH|x l1 l2 _ IH]; csimpl.
  - constructor.
  - destruct (f x); [by constructor|done].
  - destruct (f x); [by constructor|done].
Qed.

Lemma induced_vids_all g vids :
  (∀ v, v < ig.vcount g → v ∈ vids) →
  ig.induced_vids g vids = seq 0 (ig.vcount g).
Proof.
  intros Hall. unfold ig.induced_vids.
  assert (∀ l : list nat, Forall (λ v, v ∈ vids) l → filter (λ v, v ∈ vids) l = l) as H.
  { induction l as [|x l IH]; intros Hl; [done|].
    apply Forall_cons in Hl as [Hx Hl]. rewrite filter_cons_True by done.
    by rewrite IH. }
  apply H, Forall_forall. intros v Hv%elem_of_seq. apply Hall. lia.
Qed.

Lemma remap_edges_seq n (es : list (nat * nat)) :
  Forall (λ e, e.1 < n ∧ e.2 < n) es →
  omap (ig.remap_edge (seq 0 n)) es = es.
Proof.
  assert (∀ v, v < n → ig.new_id (seq 0 n) v = Some v) as Hid.
  { intros v Hv. apply new_id_Some; [apply NoDup_seq|]. by apply lookup_seq_lt. }
  induction es as [|[u v] es IH]; intros Hall; [done|].
  apply Forall_cons in Hall as [[Hu Hv] Hall]. simpl in Hu, Hv.
  assert (ig.remap_edge (seq 0 n) (u, v) = Some (u, v)) as Huv.
  { unfold ig.remap_edge. cbn [fst snd]. by rewrite !Hid. }
  csimpl. rewrite Huv. csimpl. by rewrite IH.
Qed.

(** Keeping every vertex gives the graph back. *)
Lemma subgraph_all g vids :
  ig.wf g → (∀ v, v < ig.vcount g → v ∈ vids) →
  Forall (λ v, v < ig.vcount g) vids → ig.subgraph g vids = Ok g.
Proof.
  intros [Hes Hns] Hall Hlt. unfold ig.subgraph.
  rewrite decide_True by done.
  rewrite (induced_vids_all g vids Hall), length_seq, remap_edges_seq by done.
  destruct g as [n es [names|]]; simpl in *; [|done].
  rewrite <- Hns.
  change (omap (λ v, names !! v) (seq 0 (length names)))
    with (omap (λ v, ([] ++ names) !! v)
            (seq (length (@nil string)) (length names))).
  by rewrite omap_lookup_seq.
Qed.

Lemma filter_filter_elem {A} (P Q : A → Prop)
    `{∀ x, Decision (P x)} `{∀ x, Decision (Q x)} (l : list A) :
  Forall (λ x, P x → Q x) l → filter P (filter Q l) = filter P l.
Proof.
  induction l as [|x l IH]; intros Hall; [done|].
  apply Forall_cons in Hall as [Hx Hall]. rewrite !filter_cons.
  destruct (decide (Q x)) as [HQ|HQ], (decide (P x)) as [HP|HP];
    rewrite ?filter_cons, ?decide_True, ?decide_False, ?IH by done;
    tauto || done.
Qed.

Lemma filter_filter_length {A} (P Q : A → Prop)
    `{∀ x, Decision (P x)} `{∀ x, Decision (Q x)} (l : list A) :
  length (filter P (filter Q l)) ≤ length (filter P l).
Proof.
  induction l as [|x l IH]; [done|]. rewrite !filter_cons.
  destruct (decide (Q x)), (decide (P x));
    rewrite ?filter_cons, ?decide_True, ?decide_False by done; simpl; lia.
Qed.

(** The degree of a vertex of an induced subgraph counts the edge ends
    on the vertex it stands for, among the edges that were kept. *)
Lemma incident_count_subgraph (sel : list nat) sub (kept : list (nat * nat)) j v :
  NoDup sel →
  Forall (λ e, e.1 < length sel ∧ e.2 < length sel) (ig.get_edgelist sub) →
  original_edge sel <$> ig.get_edgelist sub = kept →
  sel !! j = Some v →
  incident_count sub j
  = length (filter (λ e, e.1 = v) kept) + length (filter (λ e, e.2 = v) kept).
Proof.
  intros Hnd Hlt <- Hj. unfold incident_count.
  assert (∀ i, i < length sel → i = j ↔ sel !!! i = v) as Hiff.
  { intros i Hi. destruct (lookup_lt_is_Some_2 sel i Hi) as [u Hu].
    rewrite (list_lookup_total_correct _ _ _ Hu). split.
    - intros ->. congruence.
    - intros ->. eapply NoDup_lookup; eauto. }
  f_equal; apply filter_length_fmap;
    (eapply Forall_impl; [exact Hlt|]); intros e [H1 H2]; simpl; auto.
Qed.

Section click_more.
Context {float World : Type}.
Variable randint : Z → Z → World → Z * World.
Variable layout_fr : ig.Graph → World → ig.Layout float * World.
Variable community_multilevel : ig.Graph → World → list nat * World.
Hypothesis layout_fr_length :
  ∀ g w, length (layout_fr g w).1 = ig.vcount g.
Hypothesis community_multilevel_length :
  ∀ g w, length (community_multilevel g w).1 = ig.vcount g.

Implicit Types (g : ig.Graph) (w : World).
Implicit Types (s : State (float := float) (World := World)).

Local Abbreviation build := (create_network_figure randint community_multilevel).
Local Abbreviation on_click := (update_subgraph_plot randint layout_fr community_multilevel).

(** The figure of a click on a vertex of a renderable session, with the
    subgraph and the layout it is built from. *)
Lemma click_figure s k :
  renderable (original_graph s) (layout s) →
  (0 ≤ k < Z.of_nat (ig.vcount (original_graph s)))%Z →
  let g := original_graph s in
  let v := Z.to_nat k in
  let ns := v :: filter (λ u, u ≠ v ∧ ig.adjacent g v u) (seq 0 (ig.vcount g)) in
  let sel := ig.induced_vids g ns in
  ∃ sub lay names colors s',
    ig.vs_name g = Some names
    ∧ length names = ig.vcount g
    ∧ ig.vcount sub = length sel
    ∧ ig.wf sub
    ∧ original_edge sel <$> ig.get_edgelist sub
      = filter (λ e, e.1 ∈ sel ∧ e.2 ∈ sel) (ig.get_edgelist g)
    ∧ (∀ u, u ∈ sel ↔ u = v ∨ ig.adjacent g v u)
    ∧ length lay = length sel
    ∧ on_click (Some (click k)) s
      = (Ok {| go.data :=
                 [edge_trace (segments fst lay (ig.get_edgelist sub))
                             (segments snd lay (ig.get_edgelist sub));
                  node_trace lay.*1 lay.*2
                    (omap (λ u, names !! u) sel) colors (ig.degree sub)];
               go.layout := figure_layout |}, s').
Proof.
  intros Hr Hk g v ns sel. pose proof Hr as (Hwf & _ & [names Hnames] & _).
  fold g in Hnames.
  assert (length names = ig.vcount g) as Hnl.
  { destruct Hwf as [_ H]. fold g in H. by rewrite Hnames in H. }
  destruct (click_subgraph randint layout_fr community_multilevel s k Hwf Hk)
    as (ns' & sub & Hnb & Hsub & Hrun & Hmem & Hwfsub & Hcount & Hedges & _).
  assert (ns' = ns) as ->.
  { unfold ig.neighborhood in Hnb. rewrite decide_True in Hnb by done.
    by injection Hnb as <-. }
  destruct (click_subgraph_renderable randint layout_fr community_multilevel
              layout_fr_length s k ns sub (world s) Hr Hk Hnb Hsub)
    as (Hrsub & _).
  assert (ig.vs_name sub = Some (omap (λ u, names !! u) sel)) as Hsubnames.
  { unfold ig.subgraph in Hsub. destruct (decide _) in Hsub; [|done].
    injection Hsub as <-. cbn [ig.vs_name]. fold g. by rewrite Hnames. }
  destruct (layout_fr sub (world s)) as [lay w1] eqn:El. cbn [fst] in Hrsub.
  destruct (create_network_figure_Ok randint community_multilevel
              community_multilevel_length sub lay w1 Hrsub)
    as (names' & colors & Hfig & Hn' & _).
  rewrite Hsubnames in Hn'. injection Hn' as <-.
  eexists sub, lay, names, colors, _.
  split; [done|]. split; [done|]. split; [done|]. split; [done|].
  split; [done|]. split; [done|].
  split; [destruct Hrsub as (_ & _ & _ & ->); done|].
  rewrite Hrun. unfold run. rewrite El, Hfig. reflexivity.
Qed.

(** X4.  In the figure of a click the clicked vertex shows the degree it
    has in the session graph, because all its edges are kept; every other
    vertex shows at most its degree in the session graph.  [nodes] lists
    the session vertex behind each marker. *)
Theorem X4_clicked_vertex_keeps_degree s k :
  renderable (original_graph s) (layout s) →
  (0 ≤ k < Z.of_nat (ig.vcount (original_graph s)))%Z →
  ∃ fig s' names nodes j,
    on_click (Some (click k)) s = (Ok fig, s')
    ∧ ig.vs_name (original_graph s) = Some names
    ∧ NoDup nodes
    ∧ length (marker_degrees fig) = length nodes
    ∧ nodes !! j = Some (Z.to_nat k)
    ∧ marker_degrees fig !! j
      = Some (incident_count (original_graph s) (Z.to_nat k))
    ∧ ∀ i v, nodes !! i = Some v →
        marker_labels fig !! i = names !! v
        ∧ ∃ d, marker_degrees fig !! i = Some d
               ∧ d ≤ incident_count (original_graph s) v.
Proof.
  intros Hr Hk.
  destruct (click_figure s k Hr Hk)
    as (sub & lay & names & colors & s' & Hnames & Hnl & Hcount & Hwfsub
        & Hedges & Hmem & _ & Hfig).
  set (g := original_graph s) in *. set (v := Z.to_nat k) in *.
  set (sel := ig.induced_vids g _) in *.
  assert (NoDup sel) as Hnd by apply induced_vids_NoDup.
  assert (v ∈ sel) as [j Hj]%list_elem_of_lookup_1 by (apply Hmem; by left).
  assert (Forall (λ u, u < length names) sel) as Hsel.
  { apply Forall_forall. intros u Hu%elem_of_induced_vids. lia. }
  destruct (omap_lookup_names names sel Hsel) as [_ Hlook].
  destruct Hwfsub as [Hlt _]. rewrite Hcount in Hlt.
  assert (∀ i u, sel !! i = Some u →
            ig.degree sub !! i
            = Some (length (filter (λ e, e.1 = u)
                              (filter (λ e, e.1 ∈ sel ∧ e.2 ∈ sel) (ig.get_edgelist g)))
                    + length (filter (λ e, e.2 = u)
                                (filter (λ e, e.1 ∈ sel ∧ e.2 ∈ sel) (ig.get_edgelist g)))))
    as Hdeg.
  { intros i u Hi. rewrite degree_lookup.
    - f_equal. by eapply incident_count_subgraph.
    - rewrite Hcount. by eapply lookup_lt_Some. }
  eexists _, s', names, sel, j.
  split; [exact Hfig|]. split; [done|]. split; [done|].
  cbn [marker_degrees marker_labels go.data go.customdata go.text node_trace
       lookup list_lookup].
  split; [by rewrite degree_length|]. split; [done|]. split.
  - rewrite (Hdeg j v Hj). unfold incident_count. fold g.
    rewrite !filter_filter_elem; [done| |].
    + apply Forall_forall. intros [a b] Hin. simpl. intros ->.
      split; apply Hmem; [right; by right|by left].
    + apply Forall_forall. intros [a b] Hin. simpl. intros ->.
      split; apply Hmem; [by left|right; by left].
  - intros i u Hi. split; [by apply Hlook|].
    eexists. split; [by apply Hdeg|]. unfold incident_count. fold g.
    pose proof (filter_filter_length (λ e : nat * nat, e.1 = u)
                  (λ e, e.1 ∈ sel ∧ e.2 ∈ sel) (ig.get_edgelist g)).
    pose proof (filter_filter_length (λ e : nat * nat, e.2 = u)
                  (λ e, e.1 ∈ sel ∧ e.2 ∈ sel) (ig.get_edgelist g)).
    lia.
Qed.

(** X5.  The labels in the figure of a click are exactly the names of
    the clicked vertex and of the vertices sharing an edge with it, in
    the order they have in the session graph. *)
Theorem X5_click_labels s k :
  renderable (original_graph s) (layout s) →
  (0 ≤ k < Z.of_nat (ig.vcount (original_graph s)))%Z →
  ∃ fig s' names,
    on_click (Some (click k)) s = (Ok fig, s')
    ∧ ig.vs_name (original_graph s) = Some names
    ∧ marker_labels fig `sublist_of` names
    ∧ ∀ name, name ∈ marker_labels fig
        ↔ ∃ v, (v = Z.to_nat k ∨ ig.adjacent (original_graph s) (Z.to_nat k) v)
               ∧ names !! v = Some name.
Proof.
  intros Hr Hk.
  destruct (click_figure s k Hr Hk)
    as (sub & lay & names & colors & s' & Hnames & Hnl & _ & _ & _ & Hmem
        & _ & Hfig).
  set (g := original_graph s) in *. set (v := Z.to_nat k) in *.
  set (sel := ig.induced_vids g _) in *.
  assert (Forall (λ u, u < length names) sel) as Hsel.
  { apply Forall_forall. intros u Hu%elem_of_induced_vids. lia. }
  destruct (omap_lookup_names names sel Hsel) as [Hlen Hlook].
  eexists _, s', names. split; [exact Hfig|]. split; [done|].
  cbn [marker_labels go.data go.text node_trace lookup list_lookup].
  split.
  - pose proof (omap_lookup_seq names []) as Hall.
    assert (omap (λ u, names !! u) sel
            `sublist_of` omap (λ u, ([] ++ names) !! u)
                           (seq (length (@nil string)) (length names))) as Hs.
    { apply omap_sublist. unfold sel, ig.induced_vids.
      rewrite Hnl. apply sublist_filter. }
    by rewrite Hall in Hs.
  - intros name. split.
    + intros [i Hi]%list_elem_of_lookup_1.
      destruct (lookup_lt_is_Some_2 sel i) as [u Hu].
      { rewrite <- Hlen. by eapply lookup_lt_Some. }
      exists u. split; [apply Hmem; by eapply list_elem_of_lookup_2|].
      by rewrite <- (Hlook i u Hu).
    + intros (u & Hu%Hmem & Hname).
      apply list_elem_of_lookup_1 in Hu as [i Hi].
      apply (list_elem_of_lookup_2 _ i). by rewrite (Hlook i u Hi).
Qed.

(** X6.  The figure of a click has one marker for the clicked vertex and
    one for each other vertex sharing an edge with it: at least one
    marker, never more markers than the session graph has vertices, and
    never more edge segments than it has edges. *)
Theorem X6_click_figure_size s k :
  renderable (original_graph s) (layout s) →
  (0 ≤ k < Z.of_nat (ig.vcount (original_graph s)))%Z →
  ∃ fig s' trace,
    on_click (Some (click k)) s = (Ok fig, s')
    ∧ go.data fig !! 0 = Some trace
    ∧ length (marker_labels fig)
      = S (length (filter (λ u, u ≠ Z.to_nat k
                                ∧ ig.adjacent (original_graph s) (Z.to_nat k) u)
                     (seq 0 (ig.vcount (original_graph s)))))
    ∧ length (marker_labels fig) ≤ ig.vcount (original_graph s)
    ∧ length (go.x trace) ≤ 3 * length (ig.get_edgelist (original_graph s))
    ∧ length (go.y trace) ≤ 3 * length (ig.get_edgelist (original_graph s)).
Proof.
  intros Hr Hk.
  destruct (click_figure s k Hr Hk)
    as (sub & lay & names & colors & s' & Hnames & Hnl & _ & _ & Hedges & Hmem
        & _ & Hfig).
  set (g := original_graph s) in *. set (v := Z.to_nat k) in *.
  set (ns := v :: filter _ _) in *. set (sel := ig.induced_vids g ns) in *.
  assert (Forall (λ u, u < length names) sel) as Hsel.
  { apply Forall_forall. intros u Hu%elem_of_induced_vids. lia. }
  destruct (omap_lookup_names names sel Hsel) as [Hlen _].
  assert (sel ≡ₚ ns) as Hperm.
  { apply NoDup_Permutation.
    - apply induced_vids_NoDup.
    - apply NoDup_cons. split; [|apply NoDup_filter, NoDup_seq].
      rewrite list_elem_of_filter. tauto.
    - intros u. unfold sel. rewrite elem_of_induced_vids. unfold ns.
      rewrite elem_of_cons, list_elem_of_filter, elem_of_seq.
      split; [tauto|]. intros H. split; [done|].
      destruct H as [->|[_ ?]]; [unfold v|]; lia. }
  assert (length (ig.get_edgelist sub) ≤ length (ig.get_edgelist g)) as Hle.
  { rewrite <- (length_fmap (original_edge sel)), Hedges. apply length_filter. }
  eexists _, s', _. split; [exact Hfig|]. split; [reflexivity|].
  cbn [marker_labels go.data go.text go.x go.y node_trace edge_trace
       lookup list_lookup].
  rewrite Hlen, !segments_length. split; [by rewrite Hperm|].
  split; [|lia].
  unfold sel, ig.induced_vids.
  etrans; [apply length_filter|]. by rewrite length_seq.
Qed.

(** X7.  A click on a vertex that shares an edge with every other vertex
    renders the session graph itself, with a layout computed anew. *)
Theorem X7_click_on_hub_renders_whole_graph s k :
  ig.wf (original_graph s) →
  (0 ≤ k < Z.of_nat (ig.vcount (original_graph s)))%Z →
  (∀ v, v < ig.vcount (original_graph s) →
        v = Z.to_nat k ∨ ig.adjacent (original_graph s) (Z.to_nat k) v) →
  on_click (Some (click k)) s
  = run (λ w, let (subgraph_layout, w') := layout_fr (original_graph s) w in
              build (original_graph s) subgraph_layout w') s.
Proof.
  intros Hwf Hk Hall.
  destruct (click_subgraph randint layout_fr community_multilevel s k Hwf Hk)
    as (ns & sub & Hnb & Hsub & Hrun & Hmem & _).
  rewrite subgraph_all in Hsub.
  - injection Hsub as <-. exact Hrun.
  - done.
  - intros v Hv. by apply Hall, Hmem, elem_of_induced_vids in Hv as [? _].
  - destruct (neighborhood_Ok _ _ Hk) as (ns0 & Hnb' & _ & Hlt & _).
    rewrite Hnb in Hnb'. by injection Hnb' as ->.
Qed.

End click_more.

(** * Further properties: the served session, the random source, colours *)

Section serve_more.
Context {float RelayoutData World : Type}.
Variable randint : Z → Z → World → Z * World.
Variable Erdos_Renyi : nat → nat → World → ig.Graph * World.
Variable layout_fr : ig.Graph → World → ig.Layout float * World.
Variable community_multilevel : ig.Graph → World → list nat * World.
Hypothesis Erdos_Renyi_spec :
  ∀ n m w, m ≤ n * (n - 1) / 2 →
    ig.vcount (Erdos_Renyi n m w).1 = n
    ∧ length (ig.get_edgelist (Erdos_Renyi n m w).1) = m
    ∧ ig.wf (Erdos_Renyi n m w).1.
Hypothesis layout_fr_length :
  ∀ g w, length (layout_fr g w).1 = ig.vcount g.
Hypothesis community_multilevel_length :
  ∀ g w, length (community_multilevel g w).1 = ig.vcount g.

Implicit Types (w : World) (s : State (float := float) (World := World)).

Local Abbreviation on_click := (update_subgraph_plot randint layout_fr community_multilevel).
Local Abbreviation on_relayout :=
  (update_original_network_plot (RelayoutData := RelayoutData)
     randint community_multilevel).
Local Abbreviation served := (serve (RelayoutData := RelayoutData)
                                randint layout_fr community_multilevel).

Lemma startup_counts w s :
  startup Erdos_Renyi layout_fr w = Ok s →
  ig.vcount (original_graph s) = 50
  ∧ length (ig.get_edgelist (original_graph s)) = 100.
Proof.
  destruct (Erdos_Renyi_spec 50 100 w) as (Hn & Hm & _); [by vm_compute; lia|].
  unfold startup, create_graph, mbind, W_bind, lift, call, mret, W_ret.
  destruct (Erdos_Renyi 50 100 w) as [g w1]. cbn [fst snd] in *.
  unfold ig.set_vs_name.
  rewrite decide_True by (by rewrite length_fmap, length_seq).
  destruct (layout_fr _ w1) as [lay w2]. by intros [= <-].
Qed.

Lemma serve_session (events : list (Event (RelayoutData := RelayoutData))) s :
  original_graph (served events s) = original_graph s
  ∧ layout (served events s) = layout s.
Proof.
  unfold serve. revert s. induction events as [|ev events IH]; intros s; [done|].
  simpl. destruct (IH (dispatch randint layout_fr community_multilevel s ev))
    as [-> ->].
  apply dispatch_session.
Qed.

(** X8.  Once startup has succeeded, whatever callbacks have run since:
    a full render returns a figure with 50 markers and 100 edge segments
    (an edge trace of length 300), a click on any index from 0 to 49
    returns a figure, and a click on any other index fails (with
    TypeError when the index is negative or at least [2^63], with
    igraph's InternalError otherwise) and changes nothing. *)
Theorem X8_served_session_keeps_working w s0
    (events : list (Event (RelayoutData := RelayoutData))) :
  startup Erdos_Renyi layout_fr w = Ok s0 →
  (∀ relayoutData, ∃ fig s' trace,
     on_relayout relayoutData (served events s0) = (Ok fig, s')
     ∧ length (marker_labels fig) = 50
     ∧ go.data fig !! 0 = Some trace
     ∧ length (go.x trace) = 300 ∧ length (go.y trace) = 300)
  ∧ (∀ k, (0 ≤ k < 50)%Z →
       ∃ fig s', on_click (Some (click k)) (served events s0) = (Ok fig, s'))
  ∧ (∀ k, ¬ (0 ≤ k < 50)%Z →
       on_click (Some (click k)) (served events s0)
       = (Err (if decide (k < 0 ∨ 2 ^ 63 ≤ k)%Z
               then TypeError else InternalError),
          served events s0)).
Proof.
  intros Hstart.
  pose proof (startup_renderable Erdos_Renyi layout_fr Erdos_Renyi_spec
                layout_fr_length w s0 Hstart) as Hr.
  destruct (startup_counts w s0 Hstart) as [Hn Hm].
  destruct (serve_session events s0) as [Hg Hl].
  set (s := served events s0) in *. rewrite <- Hg, <- Hl in Hr.
  rewrite <- Hg in Hn, Hm.
  split; [|split].
  - intros relayoutData.
    destruct (create_network_figure_Ok randint community_multilevel
                community_multilevel_length _ _ (world s) Hr)
      as (ns & colors & Hfig & _ & Hnl & _).
    eexists _, _, _. split.
    { unfold update_original_network_plot, run. rewrite Hfig. reflexivity. }
    split.
    { cbn [marker_labels go.data go.text node_trace lookup list_lookup].
      by rewrite Hnl, Hn. }
    split; [reflexivity|]. cbn [go.x go.y edge_trace].
    by rewrite !segments_length, Hm.
  - intros k Hk.
    apply (update_subgraph_plot_Ok randint layout_fr community_multilevel
             layout_fr_length community_multilevel_length s k Hr).
    rewrite Hn. lia.
  - intros k Hk.
    apply (update_subgraph_plot_Err randint layout_fr community_multilevel).
    rewrite Hn. lia.
Qed.

End serve_more.

Lemma Sim_draw_colors_world k w :
  (draw_colors Sim.randint k w).2
  = {| Sim.draws := Sim.draws w; Sim.pos := Sim.pos w + 3 * k |}.
Proof.
  revert w. induction k as [|k IH]; intros [d p].
  - simpl. f_equal. lia.
  - cbn [draw_colors Sim.randint Sim.draws Sim.pos].
    specialize (IH {| Sim.draws := d; Sim.pos := S (S (S p)) |}).
    destruct (draw_colors Sim.randint k _) as [cols w']. cbn [snd] in *.
    rewrite IH. cbn [Sim.draws Sim.pos]. f_equal. lia.
Qed.

(** X2.  With the random source a sequence of raw draws, a figure build
    on a layout with points consumes exactly three draws for every
    community id from 0 to the largest in use, whether or not a vertex
    carries the id and whether or not the build then succeeds. *)
Theorem X2_three_draws_per_community {float : Type}
    (detect : ig.Graph → list nat) (g : ig.Graph)
    (positions : ig.Layout float) (w : Sim.World) :
  positions ≠ [] →
  (create_network_figure Sim.randint (Sim.community_multilevel detect)
     g positions w).2
  = {| Sim.draws := Sim.draws w;
       Sim.pos := Sim.pos w + 3 * length (ig.clusters (detect g)) |}
  ∧ (detect g ≠ [] →
     length (ig.clusters (detect g)) = S (max_list (detect g))).
Proof.
  intros Hne. split; [|apply clusters_length].
  rewrite build_unfold by done. cbn [snd Sim.community_multilevel fst].
  apply Sim_draw_colors_world.
Qed.

(** X9.  Colour strings determine the channel values: two triples of
    values from 0 to 255 that print as the same colour are equal. *)
Theorem X9_format_color_inj (r g b r' g' b' : Z) :
  (0 ≤ r ≤ 255)%Z → (0 ≤ g ≤ 255)%Z → (0 ≤ b ≤ 255)%Z →
  (0 ≤ r' ≤ 255)%Z → (0 ≤ g' ≤ 255)%Z → (0 ≤ b' ≤ 255)%Z →
  format_color r g b = format_color r' g' b' →
  r = r' ∧ g = g' ∧ b = b'.
Proof. apply format_color_inj. Qed.

(** X10.  Of the click data only the first point is read: click data
    without points make the callback fail with IndexError and change
    nothing, and further points make no difference. *)
Theorem X10_first_point_only {float World : Type}
    (randint : Z → Z → World → Z * World)
    (layout_fr : ig.Graph → World → ig.Layout float * World)
    (community_multilevel : ig.Graph → World → list nat * World)
    (s : State (float := float) (World := World)) :
  update_subgraph_plot randint layout_fr community_multilevel
    (Some {| points := [] |}) s
  = (Err IndexError, s)
  ∧ ∀ point rest,
      update_subgraph_plot randint layout_fr community_multilevel
        (Some {| points := point :: rest |}) s
      = update_subgraph_plot randint layout_fr community_multilevel
          (Some (click (pointIndex point))) s.
Proof.
  split; [|done].
  unfold update_subgraph_plot, run, mbind, W_bind, lift, of_option. simpl.
  by destruct s.
Qed.

(** * The further properties on the example scenario *)

Lemma X2_witness :
  (Sim.layout_fr Sim.path_graph Sim.counting).1 ≠ []
  ∧ (create_network_figure Sim.randint
       (Sim.community_multilevel Sim.one_community) Sim.path_graph
       (Sim.layout_fr Sim.path_graph Sim.counting).1 Sim.counting).2
    = {| Sim.draws := Z.of_nat; Sim.pos := 3 |}.
Proof.
  assert ((Sim.layout_fr Sim.path_graph Sim.counting).1 ≠ []) as Hne by done.
  split; [exact Hne|].
  exact (proj1 (X2_three_draws_per_community Sim.one_community Sim.path_graph
                  _ Sim.counting Hne)).
Defined.

Lemma X3_witness :
  renderable Sim.path_graph (Sim.layout_fr Sim.path_graph Sim.counting).1
  ∧ ∃ fig w' trace,
      create_network_figure Sim.randint
        (Sim.community_multilevel Sim.one_community) Sim.path_graph
        (Sim.layout_fr Sim.path_graph Sim.counting).1 Sim.counting
      = (Ok fig, w')
      ∧ go.data fig !! 0 = Some trace
      ∧ sum_list (marker_degrees fig) = 4
      ∧ 3 * sum_list (marker_degrees fig) = 2 * length (go.x trace)
      ∧ 3 * sum_list (marker_degrees fig) = 2 * length (go.y trace).
Proof.
  split; [path_renderable|].
  apply (X3_degrees_count_edge_ends Sim.randint
           (Sim.community_multilevel Sim.one_community)
           Sim_one_community_length Sim.path_graph _ Sim.counting).
  path_renderable.
Defined.

Lemma X4_witness :
  renderable (original_graph (Sim.path_state Sim.counting))
    (layout (Sim.path_state Sim.counting))
  ∧ (0 ≤ 1 < 4)%Z
  ∧ ∃ fig s' j,
      update_subgraph_plot Sim.randint Sim.layout_fr
        (Sim.community_multilevel Sim.one_community)
        (Some (click 1)) (Sim.path_state Sim.counting)
      = (Ok fig, s')
      ∧ marker_degrees fig !! j = Some (incident_count Sim.path_graph 1).
Proof.
  assert (renderable (original_graph (Sim.path_state Sim.counting))
            (layout (Sim.path_state Sim.counting))) as Hr
    by path_renderable.
  assert (0 ≤ 1 < 4)%Z as Hk by lia.
  split; [exact Hr|]. split; [exact Hk|].
  destruct (X4_clicked_vertex_keeps_degree Sim.randint Sim.layout_fr
              (Sim.community_multilevel Sim.one_community)
              Sim_layout_fr_length Sim_one_community_length
              (Sim.path_state Sim.counting) 1 Hr Hk)
    as (fig & s' & names & nodes & j & Hfig & _ & _ & _ & _ & Hdeg & _).
  exists fig, s', j. split; [exact Hfig|exact Hdeg].
Defined.

Lemma X5_witness :
  renderable (original_graph (Sim.path_state Sim.counting))
    (layout (Sim.path_state Sim.counting))
  ∧ (0 ≤ 1 < 4)%Z
  ∧ ∃ fig s' names,
      update_subgraph_plot Sim.randint Sim.layout_fr
        (Sim.community_multilevel Sim.one_community)
        (Some (click 1)) (Sim.path_state Sim.counting)
      = (Ok fig, s')
      ∧ ig.vs_name Sim.path_graph = Some names
      ∧ marker_labels fig `sublist_of` names
      ∧ ∀ name, name ∈ marker_labels fig
          ↔ ∃ v, (v = 1 ∨ ig.adjacent Sim.path_graph 1 v)
                 ∧ names !! v = Some name.
Proof.
  assert (renderable (original_graph (Sim.path_state Sim.counting))
            (layout (Sim.path_state Sim.counting))) as Hr
    by path_renderable.
  assert (0 ≤ 1 < 4)%Z as Hk by lia.
  split; [exact Hr|]. split; [exact Hk|].
  exact (X5_click_labels Sim.randint Sim.layout_fr
           (Sim.community_multilevel Sim.one_community)
           Sim_layout_fr_length Sim_one_community_length
           (Sim.path_state Sim.counting) 1 Hr Hk).
Defined.

Lemma X6_witness :
  renderable (original_graph (Sim.path_state Sim.counting))
    (layout (Sim.path_state Sim.counting))
  ∧ (0 ≤ 3 < 4)%Z
  ∧ ∃ fig s' trace,
      update_subgraph_plot Sim.randint Sim.layout_fr
        (Sim.community_multilevel Sim.one_community)
        (Some (click 3)) (Sim.path_state Sim.counting)
      = (Ok fig, s')
      ∧ go.data fig !! 0 = Some trace
      ∧ length (marker_labels fig) = 1
      ∧ length (go.x trace) ≤ 6.
Proof.
  assert (renderable (original_graph (Sim.path_state Sim.counting))
            (layout (Sim.path_state Sim.counting))) as Hr
    by path_renderable.
  assert (0 ≤ 3 < 4)%Z as Hk by lia.
  split; [exact Hr|]. split; [exact Hk|].
  destruct (X6_click_figure_size Sim.randint Sim.layout_fr
              (Sim.community_multilevel Sim.one_community)
              Sim_layout_fr_length Sim_one_community_length
              (Sim.path_state Sim.counting) 3 Hr Hk)
    as (fig & s' & trace & Hfig & Htrace & Hn & _ & Hx & _).
  exists fig, s', trace.
  split; [exact Hfig|]. split; [exact Htrace|]. split; [exact Hn|exact Hx].
Defined.

Lemma X7_witness :
  let star := {| ig.vcount := 3; ig.get_edgelist := [(0, 1); (1, 2)];
                 ig.vs_name := Some (node_name <$> seq 0 3) |} in
  let s := {| original_graph := star;
              layout := (Sim.layout_fr star Sim.counting).1;
              world := Sim.counting |} in
  ig.wf star ∧ (0 ≤ 1 < 3)%Z
  ∧ (∀ v, v < 3 → v = 1 ∨ ig.adjacent star 1 v)
  ∧ update_subgraph_plot Sim.randint Sim.layout_fr
      (Sim.community_multilevel Sim.one_community) (Some (click 1)) s
    = run (λ w, let (subgraph_layout, w') := Sim.layout_fr star w in
                create_network_figure Sim.randint
                  (Sim.community_multilevel Sim.one_community)
                  star subgraph_layout w') s.
Proof.
  intros star s.
  assert (ig.wf star) as Hwf by by_computation.
  assert (0 ≤ 1 < 3)%Z as Hk by lia.
  assert (∀ v, v < 3 → v = 1 ∨ ig.adjacent star 1 v) as Hhub.
  { intros [|[|[|v]]] Hv; [right|by left|right|lia]; by_computation. }
  split; [exact Hwf|]. split; [exact Hk|]. split; [exact Hhub|].
  exact (X7_click_on_hub_renders_whole_graph Sim.randint Sim.layout_fr
           (Sim.community_multilevel Sim.one_community) s 1 Hwf Hk Hhub).
Defined.

Lemma X8_witness :
  ∃ s0,
    startup Sim.Erdos_Renyi Sim.layout_fr Sim.counting = Ok s0
    ∧ ∀ k, (0 ≤ k < 50)%Z →
        ∃ fig s',
          update_subgraph_plot Sim.randint Sim.layout_fr
            (Sim.community_multilevel Sim.one_community) (Some (click k))
            (serve Sim.randint Sim.layout_fr
               (Sim.community_multilevel Sim.one_community)
               [Clicked (Some (click 3)); Relayout tt] s0)
          = (Ok fig, s').
Proof.
  destruct (startup Sim.Erdos_Renyi Sim.layout_fr Sim.counting)
    as [s0|e] eqn:Hstart; [|vm_compute in Hstart; discriminate Hstart].
  exists s0. split; [reflexivity|].
  exact (proj1 (proj2 (X8_served_session_keeps_working Sim.randint
                         Sim.Erdos_Renyi Sim.layout_fr
                         (Sim.community_multilevel Sim.one_community)
                         Sim_Erdos_Renyi_spec Sim_layout_fr_length
                         Sim_one_community_length Sim.counting s0
                         [Clicked (Some (click 3)); Relayout tt] Hstart))).
Defined.

Lemma X9_witness :
  format_color 0 171 255 = format_color 0 171 255
  ∧ (0 = 0 ∧ 171 = 171 ∧ 255 = 255)%Z.
Proof.
  split; [reflexivity|].
  apply (X9_format_color_inj 0 171 255 0 171 255); lia || reflexivity.
Defined.
